(** * Calibration-dataset builder ([02-make_calib_list.py])

    A shallow embedding of the calibration pipeline of
    [src/data/DAv2s_CPU/02-make_calib_list.py] and the properties of its
    stages: path collection, seeded sampling, per-image normalisation,
    output writing with cleanup, manifest generation and the orchestrating
    [main].

    Modelling decisions.
    - A [pathlib.Path] is the list of its parts; an absolute path starts
      with the part ["/"].  Equality, hashing and ordering of paths are
      those of the part lists, as in pathlib (POSIX flavour).
    - The file system is a finite map from paths to nodes: a key is a
      path as the program spells it, and the map holds what the operating
      system has under that spelling.  The map does not relate two
      spellings of one file (a relative path and its absolute form, a path
      with [..] and the path it resolves to, a symbolic link and its
      target): a write under one spelling is not seen under another.  The
      model is therefore exact for a run in which every file is reached
      under one spelling only.  That is so when all paths derive from one
      directory argument (the cleanup and the list file, which only use
      [output_dir / name]), and whenever the arguments and the keys of the
      map are in resolved form ([normal], [resolved_fs]: absolute, no [.]
      or [..] part), where two different paths are two different files.
      The statements that relate paths of different origin (a source and an
      output, an arbitrary path and an output) are stated for resolved
      forms; these hypotheses delimit the inputs on which the map is the
      file system, and the proofs do not use them otherwise.  Permissions
      are not modelled: a regular file can always be unlinked and
      overwritten, a directory cannot.
    - [argparse] is not modelled: the outcome of [parse_arguments] is an
      input of [script], which is [main] from its first line.  The
      function [main] of this file is the [try] block of the source's
      [main], for the parsed arguments.
    - The module [random] and the module [cv2] are interfaces ([Random],
      [Cv2]); the program is modelled over any implementation of them.
    - The program's effects (file system, generator state, log records and
      directory traversals) are threaded through a state-and-exception
      monad [M]. *)

From Stdlib Require Import Ascii DecimalString DecimalNat.
From stdpp Require Import gmap strings list fin_maps sorting.

Open Scope Z_scope.

(** ** Paths and the file system *)

Abbreviation Path := (list string).

Inductive node :=
  | File (content : string)
  | Dir.

Global Instance node_eq_dec : EqDecision node.
Proof. solve_decision. Defined.

Abbreviation FS := (gmap Path node).

(** [os.stat]: the empty path is [Path('.')], the working directory. *)
Definition stat (fs : FS) (p : Path) : option node :=
  match p with
  | [] => Some Dir
  | _ => fs !! p
  end.

Definition is_file (fs : FS) (p : Path) : bool :=
  match fs !! p with
  | Some (File _) => true
  | _ => false
  end.

(** [Path.parent] and [Path.name]. *)
Definition parent (p : Path) : Path := removelast p.
Definition name (p : Path) : option string := last p.

(** The parts of [p] after those of [dir], when [p] starts with them. *)
Fixpoint strip_parts (dir p : Path) : option Path :=
  match dir with
  | [] => Some p
  | d :: dir' =>
      match p with
      | [] => None
      | c :: p' => if decide (d = c) then strip_parts dir' p' else None
      end
  end.

(** [dir / rel] for a path below [dir]: the relative part.  [Path('.')]
    has no parts: below it are the relative paths, and no absolute one. *)
Definition relative_to (dir p : Path) : option Path :=
  match dir, p with
  | [], a :: _ => if decide (a = "/") then None else Some p
  | _, _ => strip_parts dir p
  end.

(** ** Shell-style patterns ([fnmatch], case-sensitive as on POSIX)

    The wildcards [*] and [?] are modelled.  Character classes ([[...]])
    are not: the patterns that the program builds from its default
    suffixes and its pattern for output names contain none, and the
    statements about other suffixes require them to be [wild_free]. *)

Fixpoint star_match (f : string → bool) (s : string) : bool :=
  f s || match s with
         | EmptyString => false
         | String _ s' => star_match f s'
         end.

Fixpoint fnmatch (pat s : string) : bool :=
  match pat with
  | EmptyString => bool_decide (s = EmptyString)
  | String c pat' =>
      if decide (c = "*"%char) then star_match (fnmatch pat') s
      else match s with
           | EmptyString => false
           | String d s' =>
               (bool_decide (c = "?"%char) || bool_decide (c = d))
               && fnmatch pat' s'
           end
  end.

(** A character that a pattern and [str.upper] take literally, byte by
    byte: an ASCII character other than the wildcards [*], [?] and [[] and
    the separator [/]. *)
Definition literal_char (c : ascii) : bool :=
  negb (bool_decide (c = "*"%char)) && negb (bool_decide (c = "?"%char))
  && negb (bool_decide (c = "["%char)) && negb (bool_decide (c = "/"%char))
  && (N_of_ascii c <? 128)%N.

(** A string of such characters: as a part of a pattern it matches
    itself only. *)
Fixpoint wild_free (s : string) : bool :=
  match s with
  | EmptyString => true
  | String c s' => literal_char c && wild_free s'
  end.

(** [dir.rglob(pat)]: every entry strictly below [dir] whose name matches. *)
Definition rglob_match (dir : Path) (pat : string) (p : Path) : bool :=
  match relative_to dir p with
  | Some rel =>
      match last rel with
      | Some n => fnmatch pat n
      | None => false
      end
  | None => false
  end.

(** [dir.glob(pat)] for a one-component pattern: the children of [dir]. *)
Definition glob_match (dir : Path) (pat : string) (p : Path) : bool :=
  match relative_to dir p with
  | Some [n] => fnmatch pat n
  | _ => false
  end.

Definition entries (fs : FS) : list Path := (map_to_list fs).*1.

Definition rglob_fs (fs : FS) (dir : Path) (pat : string) : list Path :=
  filter (λ p, rglob_match dir pat p = true) (entries fs).

Definition glob_fs (fs : FS) (dir : Path) (pat : string) : list Path :=
  filter (λ p, glob_match dir pat p = true) (entries fs).

(** ** Ordering of strings and paths

    [str] compares by code point ([String.le]); a path compares as the
    sequence of its parts. *)

Fixpoint path_leb (p q : Path) : bool :=
  match p, q with
  | [], _ => true
  | _ :: _, [] => false
  | a :: p', b :: q' =>
      if decide (a = b) then path_leb p' q' else bool_decide (a ≤ b)%string
  end.

Definition path_le (p q : Path) : Prop := path_leb p q = true.

Global Instance path_le_dec : RelDecision path_le.
Proof. intros p q. unfold path_le. apply _. Defined.

(** [sorted(...)] on paths. *)
Definition sorted (l : list Path) : list Path := merge_sort path_le l.

(** [sorted(set(...))]: duplicates are dropped, then the set is sorted. *)
Definition sorted_set (l : list Path) : list Path :=
  sorted (elements (list_to_set l : gset Path)).

(** [str(path)] and [path.absolute()]. *)
Fixpoint join_parts (l : list string) : string :=
  match l with
  | [] => ""
  | [a] => a
  | a :: l' => a +:+ "/" +:+ join_parts l'
  end.

Definition path_str (p : Path) : string :=
  match p with
  | [] => "."
  | a :: rest => if decide (a = "/") then "/" +:+ join_parts rest else join_parts p
  end.

Definition is_absolute (p : Path) : bool :=
  match p with
  | a :: _ => bool_decide (a = "/")
  | [] => false
  end.

Definition absolute (cwd p : Path) : Path :=
  if is_absolute p then p else cwd ++ p.

(** ** Paths in resolved form

    The name of a directory entry: not empty, not [.] or [..], without a
    separator.  A path in resolved form is the root followed by such
    names; two of them name the same file only when they are equal.  A
    file system in resolved form has no other keys. *)
Fixpoint has_slash (s : string) : bool :=
  match s with
  | EmptyString => false
  | String c s' => bool_decide (c = "/"%char) || has_slash s'
  end.

Definition valid_name (n : string) : bool :=
  negb (has_slash n)
  && negb (bool_decide (n = "")) && negb (bool_decide (n = "."))
  && negb (bool_decide (n = "..")).

Definition normal (p : Path) : bool :=
  match p with
  | a :: names => bool_decide (a = "/") && forallb valid_name names
  | [] => false
  end.

Definition resolved_fs (f : FS) : Prop :=
  Forall (λ p, normal p = true) (entries f).

(** ** Text helpers *)

(** [str.upper] on the ASCII letters; the other bytes are left as they
    are, so that [upper] is [str.upper] on ASCII strings. *)
Definition upper_char (c : ascii) : ascii :=
  let n := N_of_ascii c in
  if ((97 <=? n) && (n <=? 122))%N then ascii_of_N (n - 32) else c.

Fixpoint upper (s : string) : string :=
  match s with
  | EmptyString => EmptyString
  | String c s' => String (upper_char c) (upper s')
  end.

Fixpoint zeros (n : nat) : string :=
  match n with
  | O => ""
  | S n' => String "0" (zeros n')
  end.

(** [f"{idx:06d}"]: decimal digits, left-padded with zeros to six. *)
Definition format_06d (idx : nat) : string :=
  let s := NilZero.string_of_uint (Nat.to_uint idx) in
  zeros (6 - String.length s) +:+ s.

(** [f"calib_{idx:06d}.jpg"]. *)
Definition calib_name (idx : nat) : string :=
  "calib_" +:+ format_06d idx +:+ ".jpg".

(** Reading an ordinal back from its six-digit form. *)
Definition parse_ordinal (s : string) : option nat :=
  Nat.of_uint <$> NilEmpty.uint_of_string s.

Definition calib_pattern : string := "calib_*.jpg".
Definition list_file_name : string := "calibration_list.txt".

(** The naming scheme [calib_NNNNNN.<ext>] of the design document: the
    prefix, exactly six decimal digits, a dot and a non-empty extension. *)
Definition is_digit (c : ascii) : bool :=
  let n := N_of_ascii c in ((48 <=? n) && (n <=? 57))%N.

Fixpoint all_digits (s : string) : bool :=
  match s with
  | EmptyString => true
  | String c s' => is_digit c && all_digits s'
  end.


(** ** The library interfaces *)

(** The module [random]: [random.seed(a)] for an integer [a] replaces the
    state of the shared generator by one determined by [a];
    [random.sample(population, k)] for [0 <= k <= len(population)] returns
    [k] elements taken at distinct positions and advances the generator. *)
Class Random := {
  rng : Type;
  rng_seed : Z → rng;
  rng_sample : rng → list Path → nat → list Path * rng;
  rng_sample_length g l k :
    (k ≤ length l)%nat → length (rng_sample g l k).1 = k;
  rng_sample_submseteq g l k :
    (k ≤ length l)%nat → (rng_sample g l k).1 ⊆+ l
}.

(** The module [cv2]: decoding of a file's bytes ([cv2.imread] yields
    [None] when they do not decode), [image.shape[:2]] as (height, width),
    [cv2.resize] with linear interpolation (it raises [cv2.error] on an
    empty target size) and JPEG encoding at a quality level. *)
Class Cv2 := {
  ndarray : Type;
  imdecode : string → option ndarray;
  shape : ndarray → Z * Z;
  cv_resize : ndarray → Z → Z → option ndarray;
  imencode : ndarray → Z → option string
}.

(** ** Log records, exceptions and the state *)

Inductive level := DEBUG | INFO | WARNING | ERROR.

Inductive value_error :=
  | SourceNotFound (dir : Path)
  | SourceNotADirectory (dir : Path)
  | NoImagesFound (dir : Path)
  | SampleLargerOrNegative.

Inductive exn :=
  | ValueError (e : value_error)
  | Cv2Error.

Inductive message :=
  | MsgFound (n : nat) (dir : Path)
  | MsgUsingAll (requested : Z) (available : nat)
  | MsgSampled (k n : nat)
  | MsgDecodeFailed (p : Path)
  | MsgImwriteFalse (p : Path)
  | MsgMkdirFailed (p : Path)
  | MsgRemoveFailed (p : Path)
  | MsgProcessing (n : nat)
  | MsgSaved (p : Path)
  | MsgSaveFailed (p : Path)
  | MsgProcessed (successful total : nat)
  | MsgNoCalibrationImages
  | MsgListGenerated (n : nat) (p : Path)
  | MsgListWriteFailed
  | MsgNoneProcessed
  | MsgListFailed
  | MsgCompleted
  | MsgValidationError (e : value_error)
  | MsgUnexpectedError (e : exn).

(** What a run leaves behind besides files: the records handed to the
    logger (whatever the level of the handler), the enumerations of a
    directory tree it performed and the level that [logging.basicConfig]
    was given, in order. *)
Inductive event :=
  | Log (l : level) (m : message)
  | Traverse (dir : Path) (pattern : string)
  | Configure (l : level).

Inductive result (A : Type) :=
  | Ok (a : A)
  | Raise (e : exn).
Arguments Ok {A} a.
Arguments Raise {A} e.

(** How the process ends: with the status that [main] returned, with the
    status of the [SystemExit] of argparse, or with an exception that
    nothing caught. *)
Inductive ending :=
  | Exit (status : Z)
  | ArgparseExit (status : Z)
  | Uncaught (e : exn).

Section Pipeline.
Context {RNG : Random} {CV : Cv2}.

Record state := State {
  fs : FS;
  cwd : Path;
  gen : rng;
  trace : list event
}.

Definition set_fs (f : FS) (st : state) : state :=
  State f (cwd st) (gen st) (trace st).
Definition set_gen (g : rng) (st : state) : state :=
  State (fs st) (cwd st) g (trace st).
Definition emit (e : event) (st : state) : state :=
  State (fs st) (cwd st) (gen st) (trace st ++ [e]).

(** Computations read and update the state and end in a value or in a
    raised exception; the effects performed before a [raise] persist. *)
Definition M (A : Type) : Type := state → result A * state.

Definition ret {A} (a : A) : M A := λ st, (Ok a, st).
Definition raise {A} (e : exn) : M A := λ st, (Raise e, st).
Definition bind {A B} (m : M A) (k : A → M B) : M B := λ st,
  match m st with
  | (Ok a, st') => k a st'
  | (Raise e, st') => (Raise e, st')
  end.
(** [try: m  except Exception as e: h e]. *)
Definition try_except {A} (m : M A) (h : exn → M A) : M A := λ st,
  match m st with
  | (Ok a, st') => (Ok a, st')
  | (Raise e, st') => h e st'
  end.

Definition logger (l : level) (m : message) : M unit := λ st,
  (Ok tt, emit (Log l m) st).

End Pipeline.

Notation "x <- m ;; k" := (bind m (λ x, k))
  (at level 100, m at next level, right associativity).
Notation "m >> k" := (bind m (λ _, k))
  (at level 100, right associativity).

Section Stages.
Context {RNG : Random} {CV : Cv2}.

(** *** File-system and library calls *)

Definition path_exists (p : Path) : M bool := λ st,
  (Ok (bool_decide (is_Some (stat (fs st) p))), st).

Definition path_is_dir (p : Path) : M bool := λ st,
  (Ok (bool_decide (stat (fs st) p = Some Dir)), st).

Definition rglob (dir : Path) (pat : string) : M (list Path) := λ st,
  (Ok (rglob_fs (fs st) dir pat), emit (Traverse dir pat) st).

Definition glob (dir : Path) (pat : string) : M (list Path) := λ st,
  (Ok (glob_fs (fs st) dir pat), st).

(** [Path.unlink]: [true] when the entry was removed, [false] when the
    call raised (the entry is a directory, or is gone). *)
Definition unlink (p : Path) : M bool := λ st,
  if is_file (fs st) p then (Ok true, set_fs (delete p (fs st)) st)
  else (Ok false, st).

(** The non-empty prefixes of a path: the path and its ancestors. *)
Definition ancestors_and_self (p : Path) : list Path :=
  (λ i, take i p) <$> seq 1 (length p).

(** [Path.mkdir(parents=True, exist_ok=True)]: fails when the path or an
    ancestor is a regular file, otherwise creates what is missing. *)
Definition mkdir_parents (p : Path) : M bool := λ st,
  if bool_decide (Forall (λ d, is_file (fs st) d = false) (ancestors_and_self p))
  then (Ok true,
        set_fs (foldr (λ d f, <[d := Dir]> f) (fs st) (ancestors_and_self p)) st)
  else (Ok false, st).

(** [cv2.imread(str(path))]. *)
Definition cv_imread (p : Path) : M (option ndarray) := λ st,
  (Ok (match fs st !! p with
       | Some (File b) => imdecode b
       | _ => None
       end), st).

(** Writing the bytes [b] at [p]: the parent must be a directory and [p]
    must not be one. *)
Definition write_file (p : Path) (b : string) : M bool := λ st,
  if bool_decide (stat (fs st) (parent p) = Some Dir)
     && negb (bool_decide (fs st !! p = Some Dir))
  then (Ok true, set_fs (<[p := File b]> (fs st)) st)
  else (Ok false, st).

(** [cv2.imwrite(str(path), image, [cv2.IMWRITE_JPEG_QUALITY, quality])]. *)
Definition cv_imwrite (p : Path) (img : ndarray) (quality : Z) : M bool :=
  match imencode img quality with
  | Some b => write_file p b
  | None => ret false
  end.

Definition random_seed (a : Z) : M unit := λ st,
  (Ok tt, set_gen (rng_seed a) st).

(** [random.sample(population, k)]. *)
Definition random_sample (population : list Path) (k : Z) : M (list Path) := λ st,
  if bool_decide (0 ≤ k ≤ Z.of_nat (length population))
  then let r := rng_sample (gen st) population (Z.to_nat k) in
       (Ok r.1, set_gen r.2 st)
  else (Raise (ValueError SampleLargerOrNegative), st).

End Stages.

(** ** The program *)

Record arguments := Arguments {
  source_dir : Path;
  output_dir : Path;
  num_images : Z;
  width : Z;
  height : Z;
  seed : Z;
  quality : Z;
  verbose : bool
}.

Definition default_extensions : list string := [".jpg"; ".jpeg"; ".png"].

Definition newline : string := String (ascii_of_nat 10) "".

(** The text of the list file: one absolute path per line. *)
Definition manifest_text (cwd : Path) (image_files : list Path) : string :=
  foldr (λ img_file text, path_str (absolute cwd img_file) +:+ newline +:+ text)
        "" image_files.

Section Program.
Context {RNG : Random} {CV : Cv2}.

(** The loop of [collect_image_paths]: for each extension, one recursive
    search for the suffix as given and one for its upper-case form. *)
Fixpoint search_extensions (source_dir : Path) (extensions : list string)
    (image_paths : list Path) : M (list Path) :=
  match extensions with
  | [] => ret image_paths
  | ext :: extensions' =>
      found <- rglob source_dir ("*" +:+ ext) ;;
      found_upper <- rglob source_dir ("*" +:+ upper ext) ;;
      search_extensions source_dir extensions' (image_paths ++ found ++ found_upper)
  end.

Definition collect_image_paths (source_dir : Path) (extensions : list string)
    : M (list Path) :=
  present <- path_exists source_dir ;;
  if negb present then raise (ValueError (SourceNotFound source_dir)) else
  is_dir <- path_is_dir source_dir ;;
  if negb is_dir then raise (ValueError (SourceNotADirectory source_dir)) else
  image_paths <- search_extensions source_dir extensions [] ;;
  let image_paths := sorted_set image_paths in
  match image_paths with
  | [] => raise (ValueError (NoImagesFound source_dir))
  | _ =>
      logger INFO (MsgFound (length image_paths) source_dir) >>
      ret image_paths
  end.

Definition sample_images (image_paths : list Path) (num_samples : Z) (seed : Z)
    : M (list Path) :=
  random_seed seed >>
  if bool_decide (Z.of_nat (length image_paths) ≤ num_samples) then
    logger INFO (MsgUsingAll num_samples (length image_paths)) >>
    ret image_paths
  else
    sampled <- random_sample image_paths num_samples ;;
    logger INFO (MsgSampled (length sampled) (length image_paths)) >>
    ret (sorted sampled).

Definition load_image (image_path : Path) : M (option ndarray) :=
  img <- cv_imread image_path ;;
  match img with
  | None => logger WARNING (MsgDecodeFailed image_path)>> ret None
  | Some img => ret (Some img)
  end.

Definition resize_if_needed (image : ndarray) (target_width target_height : Z)
    : M ndarray :=
  let '(height, width) := shape image in
  if bool_decide (width = target_width) && bool_decide (height = target_height)
  then ret image
  else match cv_resize image target_width target_height with
       | Some resized => ret resized
       | None => raise Cv2Error
       end.

Definition save_image (image : ndarray) (output_path : Path) (quality : Z)
    : M bool :=
  success <- cv_imwrite output_path image quality ;;
  if negb success then
    logger ERROR (MsgImwriteFalse output_path)>> ret false
  else ret true.

(** The cleanup loop of [process_images]: unlink every old file found. *)
Fixpoint remove_old_files (old_files : list Path) : M unit :=
  match old_files with
  | [] => ret tt
  | old_file :: old_files' =>
      removed <- unlink old_file ;;
      (if removed then ret tt else logger WARNING (MsgRemoveFailed old_file)) >>
      remove_old_files old_files'
  end.

Definition clear_existing (output_dir : Path) : M unit :=
  old_files <- glob output_dir calib_pattern ;;
  remove_old_files old_files.

(** The processing loop of [process_images] from position [idx] on, with
    the running count of saved images. *)
Fixpoint process_loop (output_dir : Path) (target_width target_height quality : Z)
    (idx : nat) (image_paths : list Path) (successful : nat) : M nat :=
  match image_paths with
  | [] => ret successful
  | img_path :: image_paths' =>
      img <- load_image img_path ;;
      match img with
      | None =>
          process_loop output_dir target_width target_height quality
            (S idx) image_paths' successful
      | Some img =>
          img_resized <- resize_if_needed img target_width target_height ;;
          let output_path := output_dir ++ [calib_name idx] in
          saved <- save_image img_resized output_path quality ;;
          if saved then
            logger DEBUG (MsgSaved output_path) >>
            process_loop output_dir target_width target_height quality
              (S idx) image_paths' (S successful)
          else
            logger WARNING (MsgSaveFailed output_path) >>
            process_loop output_dir target_width target_height quality
              (S idx) image_paths' successful
      end
  end.

Definition process_images (image_paths : list Path) (output_dir : Path)
    (target_width target_height quality : Z) : M nat :=
  created <- mkdir_parents output_dir ;;
  if negb created then
    logger ERROR (MsgMkdirFailed output_dir)>> ret 0%nat
  else
    clear_existing output_dir >>
    logger INFO (MsgProcessing (length image_paths)) >>
    successful <- process_loop output_dir target_width target_height quality
                    0 image_paths 0 ;;
    logger INFO (MsgProcessed successful (length image_paths)) >>
    ret successful.

Definition generate_image_list (output_dir : Path) : M bool :=
  found <- glob output_dir calib_pattern ;;
  let image_files := sorted found in
  match image_files with
  | [] => logger ERROR MsgNoCalibrationImages>> ret false
  | _ =>
      let list_file := output_dir ++ [list_file_name] in
      written <- (λ st, write_file list_file (manifest_text (cwd st) image_files) st) ;;
      if written then
        logger INFO (MsgListGenerated (length image_files) list_file) >>
        ret true
      else
        logger ERROR MsgListWriteFailed>> ret false
  end.

Definition main_body (args : arguments) : M Z :=
  all_images <- collect_image_paths (source_dir args) default_extensions ;;
  selected_images <- sample_images all_images (num_images args) (seed args) ;;
  num_processed <- process_images selected_images (output_dir args)
                     (width args) (height args) (quality args) ;;
  if bool_decide (num_processed = 0%nat) then
    logger ERROR MsgNoneProcessed>> ret 1
  else
    generated <- generate_image_list (output_dir args) ;;
    if negb generated then
      logger ERROR MsgListFailed>> ret 1
    else
      logger INFO MsgCompleted>> ret 0.

(** The [try] statement of [main] (l.391-424), for the arguments that
    [parse_arguments] returned. *)
Definition main (args : arguments) : M Z :=
  try_except (main_body args) (λ e,
    match e with
    | ValueError v => logger ERROR (MsgValidationError v)>> ret 1
    | _ => logger ERROR (MsgUnexpectedError e)>> ret 1
    end).

(** [setup_logging(verbose)]: the level given to [logging.basicConfig]. *)
Definition setup_logging (verbose : bool) : M unit := λ st,
  (Ok tt, emit (Configure (if verbose then DEBUG else INFO)) st).

(** [sys.exit(main())], that is [main] from its first line (l.374-428).
    [parsed] is the outcome of [parse_arguments()]: the namespace, or the
    status of the [SystemExit] that argparse raised (2 for a command line
    it rejects, 0 after [--help]); that exception is raised before the
    [try] statement, and no handler of the program catches it. *)
Definition script (parsed : arguments + Z) : state → ending * state := λ st,
  match parsed with
  | inr status => (ArgparseExit status, st)
  | inl args =>
      match (setup_logging (verbose args) >> main args) st with
      | (Ok status, st') => (Exit status, st')
      | (Raise e, st') => (Uncaught e, st')
      end
  end.

End Program.

(** ** Reference implementations of the interfaces

    Small executable implementations, used to run the program on concrete
    file systems. *)

(** A generator whose state is an integer: a draw of [k] takes the first
    [k] elements in an even state and the last [k] in an odd one. *)
Global Program Instance parity_random : Random := {|
  rng := Z;
  rng_seed a := a;
  rng_sample g l k :=
    (if Z.even g then take k l else drop (length l - k) l, g + 1)
|}.
Next Obligation.
  intros g l k Hk; simpl. destruct (Z.even g).
  - rewrite length_take. lia.
  - rewrite length_drop. lia.
Qed.
Next Obligation.
  intros g l k Hk; simpl. apply sublist_submseteq. destruct (Z.even g).
  - apply sublist_take.
  - apply sublist_drop.
Qed.

(** A raster format: one byte of height, one of width, then one byte per
    pixel, row by row. *)
Record raster := Raster {
  rows : Z;
  cols : Z;
  pixels : list ascii
}.

Definition raster_decode (b : string) : option raster :=
  match b with
  | String h (String w px) =>
      let rows := Z.of_N (N_of_ascii h) in
      let cols := Z.of_N (N_of_ascii w) in
      if bool_decide (Z.of_nat (String.length px) = rows * cols)
      then Some (Raster rows cols (String.list_ascii_of_string px))
      else None
  | _ => None
  end.

(** Nearest-neighbour resampling; an empty target size is an error. *)
Definition raster_resize (img : raster) (w h : Z) : option raster :=
  if bool_decide (0 < w) && bool_decide (0 < h) then
    Some (Raster h w
      (flat_map (λ y : nat,
         (λ x : nat,
            default "000"%char
              (pixels img !! Z.to_nat
                 ((Z.of_nat y * rows img / h) * cols img
                  + Z.of_nat x * cols img / w)))
         <$> seq 0 (Z.to_nat w))
       (seq 0 (Z.to_nat h))))
  else None.

(** A lossy encoder: below quality 100 the lowest bit of every pixel is
    dropped. *)
Definition quantise (quality : Z) (c : ascii) : ascii :=
  if bool_decide (quality < 100)
  then ascii_of_N (2 * (N_of_ascii c / 2))
  else c.

Definition raster_encode (img : raster) (quality : Z) : option string :=
  if bool_decide (0 ≤ rows img < 256) && bool_decide (0 ≤ cols img < 256) then
    Some (String (ascii_of_N (Z.to_N (rows img)))
           (String (ascii_of_N (Z.to_N (cols img)))
              (String.string_of_list_ascii (quantise quality <$> pixels img))))
  else None.

Global Instance raster_cv2 : Cv2 := {|
  ndarray := raster;
  imdecode := raster_decode;
  shape img := (rows img, cols img);
  cv_resize := raster_resize;
  imencode := raster_encode
|}.

(** The bytes of a raster of the given size with the given pixel bytes,
    and a file that holds them. *)
Definition raster_bytes (h w : N) (px : string) : string :=
  String (ascii_of_N h) (String (ascii_of_N w) px).

Definition raster_file (h w : N) (px : string) : node :=
  File (raster_bytes h w px).

Definition initial_state (f : FS) : state :=
  State f ["/"; "work"] 0 [].

(** ** Closed forms used in the statements *)

Section ClosedForms.
Context {RNG : Random} {CV : Cv2}.

Definition add_trace (es : list event) (st : state) : state :=
  State (fs st) (cwd st) (gen st) (trace st ++ es).

(** What the searches of [collect_image_paths] find, in search order, and
    the traversals they perform. *)
Definition found_all (f : FS) (source_dir : Path) (extensions : list string)
    : list Path :=
  flat_map (λ ext, rglob_fs f source_dir ("*" +:+ ext)
                   ++ rglob_fs f source_dir ("*" +:+ upper ext)) extensions.

Definition traversals (source_dir : Path) (extensions : list string)
    : list event :=
  flat_map (λ ext, [Traverse source_dir ("*" +:+ ext);
                    Traverse source_dir ("*" +:+ upper ext)]) extensions.

End ClosedForms.

(** ** Example file systems *)

(** Two images in sibling directories [a] and [a-x]. *)
Definition tree_siblings : FS := list_to_map [
  (["/"; "data"], Dir);
  (["/"; "data"; "a"], Dir);
  (["/"; "data"; "a-x"], Dir);
  (["/"; "data"; "a"; "b.jpg"], raster_file 1 2 "ab");
  (["/"; "data"; "a-x"; "c.jpg"], raster_file 1 2 "cd")
].

(** Three images whose extensions differ in case only. *)
Definition tree_mixed_case : FS := list_to_map [
  (["/"; "data"], Dir);
  (["/"; "data"; "a.jpg"], raster_file 1 2 "ab");
  (["/"; "data"; "b.JPG"], raster_file 1 2 "cd");
  (["/"; "data"; "c.Jpg"], raster_file 1 2 "ef")
].


(** An output directory with leftovers: an old output, a file whose name
    only resembles one, a directory with such a name and a text file. *)
Definition tree_stale_output : FS := list_to_map [
  (["/"; "out"], Dir);
  (["/"; "out"; "calib_000007.jpg"], raster_file 1 2 "ab");
  (["/"; "out"; "calib_notes.jpg"], File "notes");
  (["/"; "out"; "calib_old.jpg"], Dir);
  (["/"; "out"; "calib_000001.png"], File "png");
  (["/"; "out"; "readme.txt"], File "text")
].

(** An output directory in which the entries named [calib_*] are one
    JPEG file, two PNG files and a directory. *)
Definition tree_mixed_output : FS := list_to_map [
  (["/"; "out"], Dir);
  (["/"; "out"; "calib_000000.jpg"], raster_file 1 2 "ab");
  (["/"; "out"; "calib_000001.png"], File "png");
  (["/"; "out"; "calib_000002.png"], File "png");
  (["/"; "out"; "calib_dir.jpg"], Dir)
].

(** ** The processing loop, item by item *)

Inductive outcome := Saved | DecodeFailure | SaveFailure.

Global Instance outcome_eq_dec : EqDecision outcome.
Proof. solve_decision. Defined.

Section Items.
Context {RNG : Random} {CV : Cv2}.

(** The body of the loop of [process_images] for the item at position
    [idx], with the branch it takes as its result. *)
Definition process_item (output_dir : Path) (target_width target_height quality : Z)
    (idx : nat) (img_path : Path) : M outcome :=
  img <- load_image img_path ;;
  match img with
  | None => ret DecodeFailure
  | Some img =>
      img_resized <- resize_if_needed img target_width target_height ;;
      let output_path := output_dir ++ [calib_name idx] in
      saved <- save_image img_resized output_path quality ;;
      if saved then logger DEBUG (MsgSaved output_path) >> ret Saved
      else logger WARNING (MsgSaveFailed output_path) >> ret SaveFailure
  end.




End Items.

(** Two images and a file that is not one. *)
Definition tree_one_corrupt : FS := list_to_map [
  (["/"; "data"], Dir);
  (["/"; "data"; "a.jpg"], raster_file 1 2 "ab");
  (["/"; "data"; "b.jpg"], File "not an image");
  (["/"; "data"; "c.png"], raster_file 2 2 "cdef")
].


(** A later state of the same run: the trace has only grown. *)
Definition extends `{Random, Cv2} (st st' : state) : Prop :=
  ∃ es, trace st' = trace st ++ es.

(** Command lines used in the examples: source [/data], output [/out],
    images of width 2 and height 1, seed 42, quality 95. *)
Definition example_args (num_images : Z) : arguments :=
  Arguments ["/"; "data"] ["/"; "out"] num_images 2 1 42 95 false.

(** * Export script ([01-export_to_onnx.py]) *)

(** Python's [a // b] on integers: floor division, [ZeroDivisionError]
    ([None]) when [b] is zero. *)
Definition floordiv (a b : Z) : option Z :=
  if decide (b = 0) then None else Some (a / b).

(** [find_optimal_size(target_size, patch_size)]: each of the two sizes
    goes through [((x + patch_size - 1) // patch_size) * patch_size]. *)
Definition find_optimal_size (target_size : Z * Z) (patch_size : Z)
    : option (Z * Z) :=
  let '(h, w) := target_size in
  qh ← floordiv (h + patch_size - 1) patch_size;
  let h_optimal := qh * patch_size in
  qw ← floordiv (w + patch_size - 1) patch_size;
  let w_optimal := qw * patch_size in
  Some (h_optimal, w_optimal).

(** * Relating two runs of the pipeline *)

(** Two file systems that agree everywhere but, possibly, at one path. *)
Definition agree_except (x : Path) (f1 f2 : FS) : Prop :=
  ∀ p, p ≠ x → f1 !! p = f2 !! p.

(** Two file systems that differ only in what a run for the output
    directory [out] overwrites anyway: missing ancestors of [out] versus
    directories, and regular files versus nothing under the output names
    and under the name of the list file. *)
Definition alike (out : Path) (f1 f2 : FS) : Prop :=
  ∀ p, f1 !! p = f2 !! p
       ∨ (p ∈ ancestors_and_self out
          ∧ is_file f1 p = false ∧ is_file f2 p = false)
       ∨ ((glob_match out calib_pattern p = true ∨ p = out ++ [list_file_name])
          ∧ f1 !! p ≠ Some Dir ∧ f2 !! p ≠ Some Dir).

Section Tail.
Context {RNG : Random} {CV : Cv2}.

(** The part of the [try] block of [main] up to the sampling. *)
Definition main_head (args : arguments) : M (list Path) :=
  all_images <- collect_image_paths (source_dir args) default_extensions ;;
  sample_images all_images (num_images args) (seed args).

(** What [main] does with the SampleSet: the part of its [try] block after
    the sampling. *)
Definition main_tail (args : arguments) (selected_images : list Path) : M Z :=
  num_processed <- process_images selected_images (output_dir args)
                     (width args) (height args) (quality args) ;;
  if bool_decide (num_processed = 0%nat) then
    logger ERROR MsgNoneProcessed >> ret 1
  else
    generated <- generate_image_list (output_dir args) ;;
    if negb generated then
      logger ERROR MsgListFailed >> ret 1
    else
      logger INFO MsgCompleted >> ret 0.

End Tail.

(** * Properties *)

(** ** The order on paths *)

Lemma path_leb_refl p : path_leb p p = true.
Proof. induction p as [|a p IH]; simpl; [done|]. by rewrite decide_True. Qed.

Global Instance path_le_refl : Reflexive path_le.
Proof. intros p. apply path_leb_refl. Qed.

Global Instance path_le_trans : Transitive path_le.
Proof.
  unfold path_le. intros p. induction p as [|a p IH]; intros q r Hpq Hqr.
  - done.
  - destruct q as [|b q]; [done|]. destruct r as [|c r]; [done|].
    simpl in *. destruct (decide (a = b)) as [->|Hab].
    + destruct (decide (b = c)) as [->|Hbc]; [by eapply IH|done].
    + destruct (decide (b = c)) as [->|Hbc].
      * by rewrite decide_False.
      * apply bool_decide_eq_true in Hpq, Hqr.
        destruct (decide (a = c)) as [->|Hac].
        -- destruct Hab. by apply (anti_symm String.le).
        -- apply bool_decide_eq_true. by etrans.
Qed.

Global Instance path_le_antisymm : AntiSymm (=) path_le.
Proof.
  unfold path_le. intros p. induction p as [|a p IH]; intros q Hpq Hqp.
  - by destruct q.
  - destruct q as [|b q]; [done|]. simpl in *.
    destruct (decide (a = b)) as [->|Hab].
    + rewrite decide_True in Hqp by done. f_equal. by apply IH.
    + rewrite decide_False in Hqp by done.
      apply bool_decide_eq_true in Hpq, Hqp.
      destruct Hab. by apply (anti_symm String.le).
Qed.

Global Instance path_le_total : Total path_le.
Proof.
  unfold path_le. intros p. induction p as [|a p IH]; intros q.
  - by left.
  - destruct q as [|b q]; [by right|]. simpl.
    destruct (decide (a = b)) as [->|Hab].
    + rewrite decide_True by done. apply IH.
    + rewrite decide_False by done. rewrite !bool_decide_eq_true.
      apply (total String.le).
Qed.

(** Below a common directory, paths compare as their relative parts. *)
Lemma path_leb_app dir p q : path_leb (dir ++ p) (dir ++ q) = path_leb p q.
Proof. induction dir as [|d dir IH]; simpl; [done|]. by rewrite decide_True. Qed.

Lemma path_le_children dir (a b : string) :
  path_le (dir ++ [a]) (dir ++ [b]) ↔ (a ≤ b)%string.
Proof.
  unfold path_le. rewrite path_leb_app. simpl.
  destruct (decide (a = b)) as [->|Hab].
  - split; [reflexivity|done].
  - apply bool_decide_eq_true.
Qed.

(** ** [sorted] and [sorted_set] *)

Lemma sorted_Permutation l : sorted l ≡ₚ l.
Proof. apply merge_sort_Permutation. Qed.

Lemma sorted_StronglySorted l : StronglySorted path_le (sorted l).
Proof. apply StronglySorted_merge_sort; apply _. Qed.

Lemma elem_of_sorted p l : p ∈ sorted l ↔ p ∈ l.
Proof. by rewrite sorted_Permutation. Qed.

Lemma sorted_length l : length (sorted l) = length l.
Proof. by rewrite sorted_Permutation. Qed.

Lemma sorted_nil_inv l : sorted l = [] → l = [].
Proof.
  intros Hs. apply Permutation_nil_r. rewrite <- Hs.
  symmetry. apply sorted_Permutation.
Qed.

Lemma sorted_nil : sorted [] = [].
Proof. reflexivity. Qed.

Lemma elem_of_sorted_set p l : p ∈ sorted_set l ↔ p ∈ l.
Proof.
  unfold sorted_set. rewrite elem_of_sorted, elem_of_elements.
  apply elem_of_list_to_set.
Qed.

Lemma sorted_set_NoDup l : NoDup (sorted_set l).
Proof.
  unfold sorted_set. rewrite sorted_Permutation. apply NoDup_elements.
Qed.

Lemma sorted_set_StronglySorted l : StronglySorted path_le (sorted_set l).
Proof. apply sorted_StronglySorted. Qed.

(** A list that is already sorted and free of duplicates is a fixed
    point. *)
Lemma sorted_id l : StronglySorted path_le l → sorted l = l.
Proof.
  intros Hl. apply (StronglySorted_unique path_le).
  - apply sorted_StronglySorted.
  - done.
  - apply sorted_Permutation.
Qed.

(** ** Relative paths and directory listings *)

Lemma strip_parts_Some dir p rel : strip_parts dir p = Some rel ↔ p = dir ++ rel.
Proof.
  revert p. induction dir as [|d dir IH]; intros p; simpl.
  - split; [by intros [= ->]|by intros ->].
  - destruct p as [|c p]; [split; [done|intros [=]]|].
    destruct (decide (d = c)) as [->|Hdc].
    + rewrite IH. split; [by intros ->|by intros [= ->]].
    + split; [done|intros [= ? ?]; by subst].
Qed.

Lemma relative_to_Some dir p rel : relative_to dir p = Some rel → p = dir ++ rel.
Proof.
  unfold relative_to. destruct dir as [|d dir].
  - destruct p as [|a p]; [by intros [= <-]|].
    destruct (decide (a = "/")); [done|by intros [= <-]].
  - apply strip_parts_Some.
Qed.

Lemma relative_to_app dir rel :
  dir ≠ [] ∨ is_absolute rel = false →
  relative_to dir (dir ++ rel) = Some rel.
Proof.
  intros Hdir. unfold relative_to. destruct dir as [|d dir].
  - destruct Hdir as [?|Hrel]; [done|]. destruct rel as [|a rel]; [done|].
    cbn [app]. simpl in Hrel. apply bool_decide_eq_false in Hrel.
    by rewrite decide_False.
  - by apply strip_parts_Some.
Qed.

Lemma glob_match_spec dir pat p :
  glob_match dir pat p = true → ∃ n, p = dir ++ [n] ∧ fnmatch pat n = true.
Proof.
  unfold glob_match.
  destruct (relative_to dir p) as [rel|] eqn:Hrel; [|done].
  apply relative_to_Some in Hrel as ->.
  destruct rel as [|n [|??]]; [done| |done]. eauto.
Qed.

(** Under a pattern that the name ["/"] does not match, as every pattern
    of the program: the children of [dir] whose name matches. *)
Lemma glob_match_child dir pat n :
  fnmatch pat "/" = false →
  glob_match dir pat (dir ++ [n]) = fnmatch pat n.
Proof.
  intros Hroot. unfold glob_match.
  destruct (decide (dir = [] ∧ n = "/")) as [[-> ->]|Hne].
  - by rewrite Hroot.
  - rewrite relative_to_app; [done|].
    destruct dir as [|d dir]; [|by left]. right. simpl.
    apply bool_decide_eq_false_2. intros ->. by destruct Hne.
Qed.

Lemma rglob_match_spec dir pat p :
  rglob_match dir pat p = true →
  ∃ sub n, p = dir ++ sub ++ [n] ∧ fnmatch pat n = true.
Proof.
  unfold rglob_match.
  destruct (relative_to dir p) as [rel|] eqn:Hrel; [|done].
  apply relative_to_Some in Hrel as ->.
  destruct (last rel) as [n|] eqn:Hlast; [|done].
  apply last_Some in Hlast as [sub ->]. eauto.
Qed.

Lemma rglob_match_below dir pat sub n :
  dir ≠ [] →
  fnmatch pat n = true →
  rglob_match dir pat (dir ++ sub ++ [n]) = true.
Proof.
  intros Hdir Hn. unfold rglob_match. rewrite relative_to_app by auto.
  by rewrite last_snoc.
Qed.

Lemma normal_nonempty (p : Path) : normal p = true → p ≠ [].
Proof. by destruct p. Qed.

Lemma elem_of_entries (f : FS) p : p ∈ entries f ↔ is_Some (f !! p).
Proof.
  unfold entries. rewrite list_elem_of_fmap. split.
  - intros ([q x] & -> & Hin). apply elem_of_map_to_list in Hin. eauto.
  - intros [x Hx]. exists (p, x). split; [done|]. by apply elem_of_map_to_list.
Qed.

Lemma entries_NoDup (f : FS) : NoDup (entries f).
Proof. apply NoDup_fst_map_to_list. Qed.

Lemma elem_of_glob_fs (f : FS) dir pat p :
  p ∈ glob_fs f dir pat ↔ is_Some (f !! p) ∧ glob_match dir pat p = true.
Proof.
  unfold glob_fs. rewrite list_elem_of_filter, elem_of_entries. tauto.
Qed.

Lemma glob_fs_NoDup (f : FS) dir pat : NoDup (glob_fs f dir pat).
Proof. apply NoDup_filter, entries_NoDup. Qed.

Lemma elem_of_rglob_fs (f : FS) dir pat p :
  p ∈ rglob_fs f dir pat ↔ is_Some (f !! p) ∧ rglob_match dir pat p = true.
Proof.
  unfold rglob_fs. rewrite list_elem_of_filter, elem_of_entries. tauto.
Qed.

(** ** Strings *)

Local Arguments String.append : simpl nomatch.

Lemma string_app_assoc (a b c : string) : (a +:+ b) +:+ c = a +:+ b +:+ c.
Proof. induction a as [|x a IH]; simpl; [done|]. by rewrite IH. Qed.

Lemma string_app_nil_r (a : string) : a +:+ "" = a.
Proof. induction a as [|x a IH]; simpl; [done|]. by rewrite IH. Qed.

Lemma string_app_chars (a b : string) :
  String.list_ascii_of_string (a +:+ b)
  = String.list_ascii_of_string a ++ String.list_ascii_of_string b.
Proof. induction a as [|x a IH]; simpl; [done|]. by rewrite IH. Qed.

Lemma string_chars_inj (a b : string) :
  String.list_ascii_of_string a = String.list_ascii_of_string b → a = b.
Proof.
  intros Hab. rewrite <- (String.string_of_list_ascii_of_string a).
  rewrite Hab. apply String.string_of_list_ascii_of_string.
Qed.

Lemma string_app_inv_tail (a b c : string) : a +:+ c = b +:+ c → a = b.
Proof.
  intros Heq. apply string_chars_inj.
  apply (f_equal String.list_ascii_of_string) in Heq.
  rewrite !string_app_chars in Heq. by apply app_inv_tail in Heq.
Qed.

Lemma string_app_length (a b : string) :
  String.length (a +:+ b) = (String.length a + String.length b)%nat.
Proof. induction a as [|x a IH]; simpl; [done|]. by rewrite IH. Qed.

(** ** Patterns *)

Lemma star_match_spec f s :
  star_match f s = true ↔ ∃ a b, s = a +:+ b ∧ f b = true.
Proof.
  induction s as [|c s IH]; simpl.
  - rewrite orb_false_r. split.
    + intros Hf. by exists "", "".
    + intros (a & b & Hab & Hf). destruct a; [|done]. simpl in Hab. by subst.
  - rewrite orb_true_iff, IH. split.
    + intros [Hf|(a & b & -> & Hf)].
      * by exists "", (String c s).
      * by exists (String c a), b.
    + intros (a & b & Hab & Hf). destruct a as [|x a]; simpl in Hab.
      * left. by subst.
      * right. injection Hab as -> ->. eauto.
Qed.

Lemma fnmatch_nil s : fnmatch "" s = true ↔ s = "".
Proof. simpl. apply bool_decide_eq_true. Qed.

Lemma literal_char_wild c :
  literal_char c = true → c ≠ "*"%char ∧ c ≠ "?"%char.
Proof.
  unfold literal_char. rewrite !andb_true_iff, !negb_true_iff, !bool_decide_eq_false.
  tauto.
Qed.

(** A wildcard-free prefix of the pattern is matched literally. *)
Lemma fnmatch_literal lit pat s :
  wild_free lit = true →
  fnmatch (lit +:+ pat) s = true ↔ ∃ r, s = lit +:+ r ∧ fnmatch pat r = true.
Proof.
  revert s. induction lit as [|c lit IH]; intros s Hlit.
  - simpl. split; [eauto|]. by intros (r & -> & Hr).
  - simpl in Hlit. apply andb_true_iff in Hlit as [Hc Hlit].
    apply literal_char_wild in Hc as [Hstar Hq].
    change (fnmatch (String c lit +:+ pat) s)
      with (if decide (c = "*"%char) then star_match (fnmatch (lit +:+ pat)) s
            else match s with
                 | EmptyString => false
                 | String d s' =>
                     (bool_decide (c = "?"%char) || bool_decide (c = d))
                     && fnmatch (lit +:+ pat) s'
                 end).
    rewrite decide_False by done.
    destruct s as [|d s].
    + split; [done|]. by intros (r & ? & _).
    + rewrite (bool_decide_eq_false_2 _ Hq). simpl.
      rewrite andb_true_iff, bool_decide_eq_true, IH by done. split.
      * intros [-> (r & -> & Hr)]. eauto.
      * intros (r & [= -> ->] & Hr). eauto.
Qed.

Lemma fnmatch_star pat s :
  fnmatch ("*" +:+ pat) s = true ↔ ∃ a b, s = a +:+ b ∧ fnmatch pat b = true.
Proof. simpl. apply star_match_spec. Qed.

Lemma fnmatch_exact lit s : wild_free lit = true → fnmatch lit s = true ↔ s = lit.
Proof.
  intros Hlit. rewrite <- (string_app_nil_r lit) at 1.
  rewrite fnmatch_literal by done. split.
  - intros (r & -> & Hr%fnmatch_nil). subst. apply string_app_nil_r.
  - intros ->. exists "". by rewrite string_app_nil_r.
Qed.

(** [*suffix] matches exactly the names that end in the suffix. *)
Lemma fnmatch_suffix suf s :
  wild_free suf = true →
  fnmatch ("*" +:+ suf) s = true ↔ ∃ a, s = a +:+ suf.
Proof.
  intros Hsuf. rewrite fnmatch_star. split.
  - intros (a & b & -> & Hb%fnmatch_exact); [|done]. subst. eauto.
  - intros (a & ->). exists a, suf. split; [done|]. by apply fnmatch_exact.
Qed.

(** [calib_*.jpg] matches the names that start with [calib_] and go on
    with a part that ends in [.jpg]. *)
Lemma fnmatch_calib_pattern s :
  fnmatch calib_pattern s = true ↔ ∃ mid, s = "calib_" +:+ mid +:+ ".jpg".
Proof.
  change calib_pattern with ("calib_" +:+ "*" +:+ ".jpg").
  rewrite fnmatch_literal by done. split.
  - intros (r & -> & (mid & ->)%fnmatch_suffix); [|done]. eauto.
  - intros (mid & ->). exists (mid +:+ ".jpg"). split; [done|].
    apply fnmatch_suffix; [done|]. eauto.
Qed.

(** ** Output names *)

Lemma uint_of_zeros k s :
  NilEmpty.uint_of_string (zeros k +:+ s)
  = Nat.iter k Decimal.D0 <$> NilEmpty.uint_of_string s.
Proof.
  induction k as [|k IH]; simpl.
  - by destruct (NilEmpty.uint_of_string s).
  - rewrite IH. by destruct (NilEmpty.uint_of_string s).
Qed.

Lemma of_uint_leading_zeros k d :
  Nat.of_uint (Nat.iter k Decimal.D0 d) = Nat.of_uint d.
Proof. induction k as [|k IH]; simpl; [done|]. exact IH. Qed.

Lemma parse_format_06d idx : parse_ordinal (format_06d idx) = Some idx.
Proof.
  unfold parse_ordinal, format_06d. cbv zeta. rewrite uint_of_zeros.
  assert (Nat.of_uint <$> NilEmpty.uint_of_string
            (NilZero.string_of_uint (Nat.to_uint idx)) = Some idx) as Hparse.
  { pose proof (Unsigned.of_to idx) as Hidx.
    destruct (Nat.to_uint idx) as [| | | | | | | | | |] eqn:Hd; simpl;
      rewrite ?NilEmpty.usu; simpl; by rewrite <- ?Hidx. }
  destruct (NilEmpty.uint_of_string _) as [d|]; [|done].
  simpl in *. injection Hparse as Hparse. by rewrite of_uint_leading_zeros, Hparse.
Qed.

Lemma format_06d_inj i j : format_06d i = format_06d j → i = j.
Proof.
  intros Hij. pose proof (parse_format_06d i) as Hi.
  rewrite Hij, parse_format_06d in Hi. by injection Hi.
Qed.

Lemma calib_name_inj i j : calib_name i = calib_name j → i = j.
Proof.
  unfold calib_name. intros Hij. apply (inj (String.app "calib_")) in Hij.
  by apply string_app_inv_tail, format_06d_inj in Hij.
Qed.

Lemma calib_name_matches idx : fnmatch calib_pattern (calib_name idx) = true.
Proof. apply fnmatch_calib_pattern. unfold calib_name. eauto. Qed.

Lemma calib_name_not_list_file idx : calib_name idx ≠ list_file_name.
Proof. unfold calib_name. simpl. intros [=]. Qed.

Lemma list_file_not_matching : fnmatch calib_pattern list_file_name = false.
Proof. reflexivity. Qed.

(** ** The sampler *)

Section Sampler.
Context {RNG : Random} {CV : Cv2}.

(** C1. Two runs of [sample_images] on the same corpus, sample count and
    seed return the same SampleSet (same elements, same order) and leave
    the generator in the same state, whatever the state of the generator,
    of the file system and of the log before each run. *)
Theorem sample_images_deterministic (image_paths : list Path) (num_samples seed : Z)
    (st1 st2 : state) :
  (sample_images image_paths num_samples seed st1).1
  = (sample_images image_paths num_samples seed st2).1
  ∧ gen (sample_images image_paths num_samples seed st1).2
    = gen (sample_images image_paths num_samples seed st2).2.
Proof.
  unfold sample_images, bind, random_seed, random_sample, logger, ret. simpl.
  case_bool_decide as Hsmall; simpl; [done|].
  case_bool_decide as Hrange; simpl; done.
Qed.

(** The branch of [sample_images] that samples nothing. *)
Lemma sample_images_small (image_paths : list Path) (num_samples seed : Z)
    (st : state) :
  Z.of_nat (length image_paths) ≤ num_samples →
  sample_images image_paths num_samples seed st
  = (Ok image_paths,
     emit (Log INFO (MsgUsingAll num_samples (length image_paths)))
       (set_gen (rng_seed seed) st)).
Proof.
  intros Hsmall. unfold sample_images, bind, random_seed, logger, ret. simpl.
  by rewrite bool_decide_eq_true_2.
Qed.

(** C2. When the corpus has at most [num_samples] elements,
    [sample_images] returns the corpus itself, for every seed; the only
    effects are the reseeding of the generator and one INFO record. *)
Theorem sample_images_small_corpus (image_paths : list Path) (num_samples seed : Z)
    (st : state) :
  Z.of_nat (length image_paths) ≤ num_samples →
  sample_images image_paths num_samples seed st
  = (Ok image_paths,
     emit (Log INFO (MsgUsingAll num_samples (length image_paths)))
       (set_gen (rng_seed seed) st)).
Proof.
  intros Hsmall. unfold sample_images, bind, random_seed, logger, ret. simpl.
  by rewrite bool_decide_eq_true_2.
Qed.

(** Otherwise it is the sorted draw of the reseeded generator. *)
Lemma sample_images_draw (image_paths : list Path) (num_samples seed : Z)
    (st : state) :
  0 ≤ num_samples < Z.of_nat (length image_paths) →
  (sample_images image_paths num_samples seed st).1
  = Ok (sorted (rng_sample (rng_seed seed) image_paths (Z.to_nat num_samples)).1).
Proof.
  intros Hn. unfold sample_images, bind, random_seed, random_sample, logger, ret.
  simpl. rewrite bool_decide_eq_false_2 by lia.
  rewrite bool_decide_eq_true_2 by lia. done.
Qed.

Lemma sample_images_negative (image_paths : list Path) (num_samples seed : Z)
    (st : state) :
  num_samples < 0 →
  sample_images image_paths num_samples seed st
  = (Raise (ValueError SampleLargerOrNegative), set_gen (rng_seed seed) st).
Proof.
  intros Hn. unfold sample_images, bind, random_seed, random_sample, logger, ret.
  simpl. rewrite bool_decide_eq_false_2 by lia.
  rewrite bool_decide_eq_false_2 by lia. done.
Qed.

Lemma sample_images_zero (image_paths : list Path) (seed : Z) (st : state) :
  image_paths ≠ [] →
  ∃ st', sample_images image_paths 0 seed st = (Ok [], st') ∧ fs st' = fs st.
Proof.
  intros Hne. unfold sample_images, bind, random_seed, random_sample, logger, ret.
  simpl. rewrite bool_decide_eq_false_2 by (destruct image_paths; simpl; [done|lia]).
  rewrite bool_decide_eq_true_2 by lia. simpl.
  pose proof (rng_sample_length (rng_seed seed) image_paths 0 ltac:(lia)) as Hlen.
  apply nil_length_inv in Hlen. change (Z.to_nat 0) with 0%nat.
  rewrite Hlen. eauto.
Qed.

(** The SampleSet keeps only elements of the corpus. *)
Lemma sample_images_subset (image_paths : list Path) (num_samples seed : Z)
    (st st' : state) (selected : list Path) :
  sample_images image_paths num_samples seed st = (Ok selected, st') →
  selected ⊆ image_paths ∧ fs st' = fs st ∧ cwd st' = cwd st.
Proof.
  unfold sample_images, bind, random_seed, random_sample, logger, ret. simpl.
  case_bool_decide as Hsmall; simpl.
  - by intros [= <- <-].
  - case_bool_decide as Hrange; simpl; [|done]. intros [= <- <-].
    split; [|done]. intros p Hp. apply -> elem_of_sorted in Hp.
    eapply elem_of_submseteq; [done|]. apply rng_sample_submseteq. lia.
Qed.

End Sampler.

(** A run of C2: three paths, three hundred requested. *)
Lemma sample_images_small_corpus_witness :
  sample_images [["a.jpg"]; ["b.jpg"]; ["c.png"]] 300 42 (initial_state ∅)
  = (Ok [["a.jpg"]; ["b.jpg"]; ["c.png"]],
     emit (Log INFO (MsgUsingAll 300 3)) (set_gen (rng_seed 42) (initial_state ∅))).
Proof.
  apply (sample_images_small_corpus [["a.jpg"]; ["b.jpg"]; ["c.png"]] 300 42).
  simpl. lia.
Defined.

(** ** The path collector *)

Section Collector.
Context {RNG : Random} {CV : Cv2}.

Lemma add_trace_nil (st : state) : add_trace [] st = st.
Proof. destruct st. unfold add_trace. simpl. by rewrite app_nil_r. Qed.

Lemma add_trace_emit e es (st : state) :
  add_trace es (emit e st) = add_trace (e :: es) st.
Proof. unfold add_trace, emit. simpl. by rewrite <- app_assoc. Qed.

Lemma search_extensions_eq source_dir extensions image_paths (st : state) :
  search_extensions source_dir extensions image_paths st
  = (Ok (image_paths ++ found_all (fs st) source_dir extensions),
     add_trace (traversals source_dir extensions) st).
Proof.
  revert image_paths st.
  induction extensions as [|ext extensions IH]; intros image_paths st.
  - simpl. unfold ret. by rewrite app_nil_r, add_trace_nil.
  - simpl. unfold bind, rglob. simpl. rewrite IH. simpl.
    rewrite !add_trace_emit. by rewrite <- !app_assoc.
Qed.

(** [collect_image_paths] on an existing directory, in closed form. *)
Lemma collect_image_paths_eq source_dir extensions (st : state) :
  stat (fs st) source_dir = Some Dir →
  collect_image_paths source_dir extensions st
  = match sorted_set (found_all (fs st) source_dir extensions) with
    | [] => (Raise (ValueError (NoImagesFound source_dir)),
             add_trace (traversals source_dir extensions) st)
    | corpus =>
        (Ok corpus,
         emit (Log INFO (MsgFound (length corpus) source_dir))
           (add_trace (traversals source_dir extensions) st))
    end.
Proof.
  intros Hdir. unfold collect_image_paths, bind, path_exists, path_is_dir.
  simpl. rewrite Hdir. rewrite bool_decide_eq_true_2 by eauto. simpl.
  rewrite Hdir. rewrite bool_decide_eq_true_2 by done. simpl.
  rewrite search_extensions_eq. simpl.
  by destruct (sorted_set _).
Qed.

Lemma collect_image_paths_missing source_dir extensions (st : state) :
  stat (fs st) source_dir ≠ Some Dir →
  ∃ e, collect_image_paths source_dir extensions st = (Raise (ValueError e), st).
Proof.
  intros Hdir. unfold collect_image_paths, bind, path_exists, path_is_dir.
  simpl. case_bool_decide; simpl; [|by eauto].
  rewrite bool_decide_eq_false_2 by done. simpl. by eauto.
Qed.

Lemma elem_of_found_all (f : FS) source_dir extensions p :
  p ∈ found_all f source_dir extensions ↔
  is_Some (f !! p) ∧
  ∃ ext, ext ∈ extensions ∧
         (rglob_match source_dir ("*" +:+ ext) p = true
          ∨ rglob_match source_dir ("*" +:+ upper ext) p = true).
Proof.
  unfold found_all. rewrite list_elem_of_In, in_flat_map. split.
  - intros (ext & Hext%list_elem_of_In & Hp%list_elem_of_In).
    apply elem_of_app in Hp as [Hp|Hp]; apply elem_of_rglob_fs in Hp as [??];
      split; eauto.
  - intros (Hsome & ext & Hext & Hp). exists ext.
    split; [by apply list_elem_of_In|]. apply list_elem_of_In, elem_of_app.
    destruct Hp; [left|right]; by apply elem_of_rglob_fs.
Qed.

Lemma collect_image_paths_Ok source_dir extensions (st st' : state) corpus :
  collect_image_paths source_dir extensions st = (Ok corpus, st') →
  stat (fs st) source_dir = Some Dir
  ∧ corpus = sorted_set (found_all (fs st) source_dir extensions)
  ∧ corpus ≠ []
  ∧ st' = emit (Log INFO (MsgFound (length corpus) source_dir))
            (add_trace (traversals source_dir extensions) st).
Proof.
  intros Hrun. destruct (decide (stat (fs st) source_dir = Some Dir)) as [Hdir|Hdir].
  - rewrite collect_image_paths_eq in Hrun by done.
    destruct (sorted_set _) as [|p l] eqn:Hcorpus; [done|].
    injection Hrun as <- <-. done.
  - apply (collect_image_paths_missing _ extensions) in Hdir as [e He].
    by rewrite He in Hrun.
Qed.

(** The corpus holds exactly the entries below the source directory whose
    name ends in a configured suffix as given, or in its upper-case form. *)
Lemma elem_of_corpus source_dir extensions (st st' : state) corpus p :
  collect_image_paths source_dir extensions st = (Ok corpus, st') →
  p ∈ corpus ↔
  is_Some (fs st !! p) ∧
  ∃ ext, ext ∈ extensions ∧
         (rglob_match source_dir ("*" +:+ ext) p = true
          ∨ rglob_match source_dir ("*" +:+ upper ext) p = true).
Proof.
  intros (_ & -> & _ & _)%collect_image_paths_Ok.
  by rewrite elem_of_sorted_set, elem_of_found_all.
Qed.

(** C5, as the program has it.  The corpus is ascending in the order of
    [pathlib] paths, which compares two paths part by part (each part as a
    string); it has no duplicates; its elements are the paths formed from
    the source directory as it was given, each an entry of the file
    system; the traversal leaves the file system as it was. *)
Theorem collect_image_paths_sorted source_dir extensions (st st' : state) corpus :
  collect_image_paths source_dir extensions st = (Ok corpus, st') →
  StronglySorted path_le corpus
  ∧ NoDup corpus
  ∧ Forall (λ p, ∃ rel, p = source_dir ++ rel ∧ rel ≠ [] ∧ is_Some (fs st !! p)) corpus
  ∧ fs st' = fs st.
Proof.
  intros Hrun. pose proof Hrun as (_ & Hcorpus & _ & ->)%collect_image_paths_Ok.
  split_and!.
  - rewrite Hcorpus. apply sorted_set_StronglySorted.
  - rewrite Hcorpus. apply sorted_set_NoDup.
  - apply Forall_forall. intros p Hp.
    apply (elem_of_corpus _ _ _ _ _ _ Hrun) in Hp as (Hsome & ext & _ & Hm).
    assert (∃ pat, rglob_match source_dir pat p = true) as [pat Hpat]
      by (destruct Hm; eauto).
    apply rglob_match_spec in Hpat as (sub & n & -> & _).
    exists (sub ++ [n]). split_and!; [done| |done]. by destruct sub.
  - done.
Qed.

End Collector.

(** C5, as stated, fails: the corpus of [tree_siblings] is
    [/data/a/b.jpg], [/data/a-x/c.jpg] in this order, while as strings
    ["/data/a-x/c.jpg"] comes before ["/data/a/b.jpg"] (the character [-]
    is below [/]). *)
Lemma corpus_not_in_string_order :
  let corpus := [["/"; "data"; "a"; "b.jpg"]; ["/"; "data"; "a-x"; "c.jpg"]] in
  (collect_image_paths ["/"; "data"] default_extensions
     (initial_state tree_siblings)).1 = Ok corpus
  ∧ Forall (λ p, is_absolute p = true) corpus
  ∧ ¬ Sorted String.le (path_str <$> corpus).
Proof.
  split_and!.
  - vm_compute. reflexivity.
  - repeat constructor.
  - intros Hsorted. apply Sorted_inv in Hsorted as [_ Hhd].
    apply HdRel_inv in Hhd. vm_compute in Hhd. done.
Qed.

Lemma collect_image_paths_sorted_witness :
  let st := initial_state tree_siblings in
  let corpus := [["/"; "data"; "a"; "b.jpg"]; ["/"; "data"; "a-x"; "c.jpg"]] in
  StronglySorted path_le corpus
  ∧ NoDup corpus
  ∧ Forall (λ p, ∃ rel, p = ["/"; "data"] ++ rel ∧ rel ≠ []
                        ∧ is_Some (fs st !! p)) corpus
  ∧ fs (collect_image_paths ["/"; "data"] default_extensions st).2 = fs st.
Proof.
  apply (collect_image_paths_sorted ["/"; "data"] default_extensions
           (initial_state tree_siblings)).
  vm_compute. reflexivity.
Defined.

(** C4 at a failing input.  The file [c.Jpg] is an entry of
    [tree_mixed_case] and its extension is a case variant of [.jpg], yet
    the corpus holds [a.jpg] and [b.JPG] only. *)
Theorem mixed_case_extension_not_collected :
  tree_mixed_case !! ["/"; "data"; "c.Jpg"] = Some (raster_file 1 2 "ef")
  ∧ upper ".Jpg" = upper ".jpg"
  ∧ (collect_image_paths ["/"; "data"] default_extensions
       (initial_state tree_mixed_case)).1
    = Ok [["/"; "data"; "a.jpg"]; ["/"; "data"; "b.JPG"]].
Proof. split_and!; vm_compute; reflexivity. Qed.

Section CollectorOutputs.
Context {RNG : Random} {CV : Cv2}.



End CollectorOutputs.


(** ** The writer's cleanup *)

Section Cleanup.
Context {RNG : Random} {CV : Cv2}.

Lemma remove_old_files_spec (old_files : list Path) (st : state) :
  (remove_old_files old_files st).1 = Ok tt
  ∧ cwd (remove_old_files old_files st).2 = cwd st
  ∧ gen (remove_old_files old_files st).2 = gen st
  ∧ ∀ p, fs (remove_old_files old_files st).2 !! p
         = if bool_decide (p ∈ old_files) && is_file (fs st) p
           then None else fs st !! p.
Proof.
  revert st. induction old_files as [|old_file old_files IH]; intros st.
  - simpl. split_and!; done.
  - simpl. unfold bind, unlink.
    destruct (is_file (fs st) old_file) eqn:Hfile; simpl.
    + destruct (IH (set_fs (delete old_file (fs st)) st)) as (-> & -> & -> & Hfs).
      split_and!; try done. intros p. rewrite Hfs. simpl.
      destruct (decide (p = old_file)) as [->|Hne].
      * rewrite Hfile, (bool_decide_eq_true_2 (_ ∈ _ :: _)) by apply list_elem_of_here.
        simpl.
        rewrite lookup_delete_eq. by destruct (_ && _).
      * unfold is_file. rewrite lookup_delete_ne by done.
        rewrite (bool_decide_ext (p ∈ old_files) (p ∈ old_file :: old_files))
          by (rewrite elem_of_cons; tauto). done.
    + destruct (IH (emit (Log WARNING (MsgRemoveFailed old_file)) st))
        as (-> & -> & -> & Hfs).
      split_and!; try done. intros p. rewrite Hfs. simpl.
      destruct (decide (p = old_file)) as [->|Hne].
      * rewrite Hfile, !andb_false_r. done.
      * rewrite (bool_decide_ext (p ∈ old_files) (p ∈ old_file :: old_files))
          by (rewrite elem_of_cons; tauto). done.
Qed.

Lemma is_file_Some (f : FS) p : is_file f p = true → is_Some (f !! p).
Proof. unfold is_file. destruct (f !! p); [eauto|done]. Qed.


Lemma clear_existing_lookup (output_dir : Path) (st : state) p :
  fs (clear_existing output_dir st).2 !! p
  = if glob_match output_dir calib_pattern p && is_file (fs st) p
    then None else fs st !! p.
Proof.
  unfold clear_existing, bind, glob. simpl.
  destruct (remove_old_files_spec (glob_fs (fs st) output_dir calib_pattern) st)
    as (_ & _ & _ & ->).
  destruct (is_file (fs st) p) eqn:Hfile; [|by rewrite !andb_false_r].
  rewrite !andb_true_r.
  destruct (glob_match output_dir calib_pattern p) eqn:Hmatch.
  - rewrite bool_decide_eq_true_2; [done|].
    apply elem_of_glob_fs. split; [by apply is_file_Some|done].
  - rewrite bool_decide_eq_false_2; [done|].
    rewrite elem_of_glob_fs. intros [_ ?]. congruence.
Qed.

Lemma clear_existing_frame (output_dir : Path) (st : state) :
  (clear_existing output_dir st).1 = Ok tt
  ∧ cwd (clear_existing output_dir st).2 = cwd st
  ∧ gen (clear_existing output_dir st).2 = gen st.
Proof.
  unfold clear_existing, bind, glob. simpl.
  destruct (remove_old_files_spec (glob_fs (fs st) output_dir calib_pattern) st)
    as (? & ? & ? & _). done.
Qed.


End Cleanup.


(** ** The manifest *)

Section Manifest.
Context {RNG : Random} {CV : Cv2}.

Global Instance child_inj (dir : Path) : Inj (=) (=) (λ n : string, dir ++ [n]).
Proof. intros a b Hab. apply app_inv_head in Hab. by injection Hab. Qed.

Lemma parent_child (dir : Path) (n : string) : parent (dir ++ [n]) = dir.
Proof. apply removelast_last. Qed.

Lemma children_fmap (dir : Path) (l : list Path) :
  Forall (λ p, ∃ n, p = dir ++ [n]) l →
  l = (λ n, dir ++ [n]) <$> omap name l.
Proof.
  induction 1 as [|p l [n ->] _ IH]; simpl; [done|].
  unfold name at 1. rewrite last_snoc. simpl. f_equal. exact IH.
Qed.

Lemma glob_fs_children (f : FS) dir pat :
  Forall (λ p, ∃ n, p = dir ++ [n]) (glob_fs f dir pat).
Proof.
  apply Forall_forall. intros p [_ Hp]%elem_of_glob_fs.
  apply glob_match_spec in Hp as (n & -> & _). eauto.
Qed.

(** Children of one directory are ordered by their names. *)
Lemma StronglySorted_children (dir : Path) (names : list string) :
  StronglySorted path_le ((λ n, dir ++ [n]) <$> names) →
  StronglySorted String.le names.
Proof.
  induction names as [|n names IH]; simpl; intros Hs; [constructor|].
  apply StronglySorted_inv in Hs as [Hs Hall]. constructor; [by apply IH|].
  apply (proj1 (Forall_fmap _ _ _)) in Hall. apply (Forall_impl _ _ _ Hall).
  intros m Hm. simpl in Hm. by apply path_le_children in Hm.
Qed.

(** The two outcomes of [generate_image_list], by the names it finds. *)
Lemma generate_image_list_cases (output_dir : Path) (st : state) :
  let list_file := output_dir ++ [list_file_name] in
  ∃ names : list string,
    StronglySorted String.le names
    ∧ NoDup names
    ∧ (∀ n, n ∈ names ↔
            fnmatch calib_pattern n = true ∧ is_Some (fs st !! (output_dir ++ [n])))
    ∧ generate_image_list output_dir st
      = match names with
        | [] => (Ok false, emit (Log ERROR MsgNoCalibrationImages) st)
        | _ =>
            if bool_decide (stat (fs st) output_dir = Some Dir)
               && negb (bool_decide (fs st !! list_file = Some Dir))
            then (Ok true,
                  emit (Log INFO (MsgListGenerated (length names) list_file))
                    (set_fs
                       (<[list_file :=
                            File (foldr (λ n text,
                                    path_str (absolute (cwd st) (output_dir ++ [n]))
                                    +:+ newline +:+ text) "" names)]> (fs st))
                       st))
            else (Ok false, emit (Log ERROR MsgListWriteFailed) st)
        end.
Proof.
  simpl.
  set (files := sorted (glob_fs (fs st) output_dir calib_pattern)).
  assert (Forall (λ p, ∃ n, p = output_dir ++ [n]) files) as Hchildren.
  { unfold files. rewrite sorted_Permutation. apply glob_fs_children. }
  apply children_fmap in Hchildren. exists (omap name files).
  set (names := omap name files) in *.
  split_and!.
  - apply (StronglySorted_children output_dir). rewrite <- Hchildren.
    apply sorted_StronglySorted.
  - apply (NoDup_fmap_1 (λ n, output_dir ++ [n])). rewrite <- Hchildren.
    unfold files. rewrite sorted_Permutation. apply glob_fs_NoDup.
  - intros n.
    rewrite <- (list_elem_of_fmap_inj (λ n, output_dir ++ [n])), <- Hchildren.
    unfold files. rewrite elem_of_sorted, elem_of_glob_fs, glob_match_child by done.
    tauto.
  - unfold generate_image_list, bind, glob. simpl. fold files.
    assert (manifest_text (cwd st) files
            = foldr (λ n text, path_str (absolute (cwd st) (output_dir ++ [n]))
                               +:+ newline +:+ text) "" names) as Htext.
    { rewrite Hchildren. unfold manifest_text. by rewrite foldr_fmap. }
    assert (length files = length names) as Hlen
      by (by rewrite Hchildren, length_fmap).
    destruct names as [|n names'] eqn:Hnames.
    + rewrite Hchildren. done.
    + rewrite <- Hnames in *. destruct files as [|p files'] eqn:Hfiles.
      { rewrite Hnames in Hchildren. done. }
      rewrite <- Hfiles in *. unfold write_file. simpl.
      rewrite parent_child. rewrite Htext, Hlen.
      by destruct (_ && _).
Qed.

(** The text of a path whose parts are the root and [comps]. *)
Lemma join_parts_concat (l : list string) : join_parts l = String.concat "/" l.
Proof. induction l as [|a [|b l] IH]; [done..|]. simpl in *. by rewrite IH. Qed.

Lemma has_slash_false_ne (c : string) : has_slash c = false → c ≠ "/".
Proof. by intros Hc ->. Qed.

(** [str((output_dir / n).absolute())] when the absolute form of the
    directory is the root followed by [comps]. *)
Lemma absolute_entry_str (cwd output_dir : Path) (comps : list string) (n : string) :
  output_dir = "/" :: comps
  ∨ (Forall (λ c, has_slash c = false) output_dir
     ∧ cwd ++ output_dir = "/" :: comps) →
  n ≠ "/" →
  path_str (absolute cwd (output_dir ++ [n]))
  = "/" +:+ String.concat "/" (comps ++ [n]).
Proof.
  intros [->|[Hrel Habs]] Hn.
  - unfold absolute. cbn [app is_absolute]. rewrite bool_decide_eq_true_2 by done.
    unfold path_str. rewrite decide_True by done. by rewrite join_parts_concat.
  - assert (is_absolute (output_dir ++ [n]) = false) as Hrelative.
    { destruct output_dir as [|c output_dir]; cbn [app is_absolute].
      - by apply bool_decide_eq_false_2.
      - apply bool_decide_eq_false_2. apply has_slash_false_ne.
        by apply Forall_cons in Hrel as [? _]. }
    unfold absolute. rewrite Hrelative, app_assoc, Habs. unfold path_str. cbn [app].
    rewrite decide_True by done. by rewrite join_parts_concat.
Qed.

Lemma calib_name_not_root (n : string) : fnmatch calib_pattern n = true → n ≠ "/".
Proof. by intros (mid & ->)%fnmatch_calib_pattern. Qed.

Lemma concat_empty_cons (x : string) (l : list string) :
  String.concat "" (x :: l) = x +:+ String.concat "" l.
Proof. destruct l; simpl; [by rewrite string_app_nil_r|done]. Qed.

(** The text of the list file, line by line. *)
Lemma manifest_lines (cwd output_dir : Path) (comps : list string)
    (names : list string) :
  output_dir = "/" :: comps
  ∨ (Forall (λ c, has_slash c = false) output_dir
     ∧ cwd ++ output_dir = "/" :: comps) →
  Forall (λ n, n ≠ "/") names →
  foldr (λ n text,
    path_str (absolute cwd (output_dir ++ [n])) +:+ newline +:+ text) "" names
  = String.concat ""
      ((λ n, "/" +:+ String.concat "/" (comps ++ [n]) +:+ String "010" "")
         <$> names).
Proof.
  intros Habs Hnames. induction Hnames as [|n names Hn Hnames IH]; [done|].
  cbn [foldr fmap list_fmap]. rewrite concat_empty_cons, <- IH.
  rewrite (absolute_entry_str _ _ comps) by done.
  change newline with (String "010" ""). by rewrite <- !string_app_assoc.
Qed.

(** C9, as the program has it.  [generate_image_list] lists what the
    output directory holds, and nothing else: with [names] the names of
    the entries of the directory (regular files and directories alike)
    that start with [calib_] and end in [.jpg], each once and in ascending
    string order, it fails when there is none; otherwise it writes, for
    each name in that order, one line into [calibration_list.txt] of that
    directory (and fails only when that file cannot be written).  With
    the absolute form of the directory (the directory as given when it
    starts at the root, otherwise the working directory followed by it)
    being the root followed by [comps], the line of a name is a slash, the
    parts [comps] and the name joined by slashes, and a line feed.
    Neither the requested sample count nor the count of saved images is an
    input of it. *)
Theorem generate_image_list_spec (output_dir : Path) (st : state)
    (comps : list string) :
  output_dir = "/" :: comps
  ∨ (Forall (λ c, has_slash c = false) output_dir
     ∧ cwd st ++ output_dir = "/" :: comps) →
  let list_file := output_dir ++ ["calibration_list.txt"] in
  let line n := "/" +:+ String.concat "/" (comps ++ [n]) +:+ String "010" "" in
  ∃ names : list string,
    StronglySorted String.le names
    ∧ NoDup names
    ∧ (∀ n, n ∈ names ↔
            (∃ mid, n = "calib_" +:+ mid +:+ ".jpg")
            ∧ is_Some (fs st !! (output_dir ++ [n])))
    ∧ generate_image_list output_dir st
      = match names with
        | [] => (Ok false, emit (Log ERROR MsgNoCalibrationImages) st)
        | _ =>
            if bool_decide (stat (fs st) output_dir = Some Dir)
               && negb (bool_decide (fs st !! list_file = Some Dir))
            then (Ok true,
                  emit (Log INFO (MsgListGenerated (length names) list_file))
                    (set_fs
                       (<[list_file := File (String.concat "" (line <$> names))]>
                          (fs st))
                       st))
            else (Ok false, emit (Log ERROR MsgListWriteFailed) st)
        end.
Proof.
  intros Habs. cbv zeta.
  destruct (generate_image_list_cases output_dir st)
    as (names & Hsorted & Hnodup & Hin & Hrun).
  exists names. split_and!; [done..| |].
  - intros n. by rewrite Hin, fnmatch_calib_pattern.
  - rewrite Hrun. rewrite (manifest_lines _ _ comps); [done..|].
    apply Forall_forall. intros n [Hn _]%Hin. by apply calib_name_not_root.
Qed.



End Manifest.

Lemma generate_image_list_spec_witness :
  let st := initial_state tree_stale_output in
  let output_dir := ["/"; "out"] in
  let list_file := output_dir ++ ["calibration_list.txt"] in
  let line n := "/" +:+ String.concat "/" (["out"] ++ [n]) +:+ String "010" "" in
  ∃ names : list string,
    StronglySorted String.le names
    ∧ NoDup names
    ∧ (∀ n, n ∈ names ↔
            (∃ mid, n = "calib_" +:+ mid +:+ ".jpg")
            ∧ is_Some (fs st !! (output_dir ++ [n])))
    ∧ generate_image_list output_dir st
      = match names with
        | [] => (Ok false, emit (Log ERROR MsgNoCalibrationImages) st)
        | _ =>
            if bool_decide (stat (fs st) output_dir = Some Dir)
               && negb (bool_decide (fs st !! list_file = Some Dir))
            then (Ok true,
                  emit (Log INFO (MsgListGenerated (length names) list_file))
                    (set_fs
                       (<[list_file := File (String.concat "" (line <$> names))]>
                          (fs st))
                       st))
            else (Ok false, emit (Log ERROR MsgListWriteFailed) st)
        end.
Proof.
  apply (generate_image_list_spec ["/"; "out"] (initial_state tree_stale_output)
           ["out"]).
  left. reflexivity.
Defined.

(** C9, as stated, fails: the entries of [tree_mixed_output] named
    [calib_*] are three regular files and a directory; the list has two
    lines, one for the JPEG file and one for the directory, and none for
    the two PNG files. *)
Lemma manifest_lists_directory_not_png :
  let st := initial_state tree_mixed_output in
  let out := ["/"; "out"] in
  let nl := String "010" "" in
  (generate_image_list out st).1 = Ok true
  ∧ fs (generate_image_list out st).2 !! (out ++ ["calibration_list.txt"])
    = Some (File ("/out/calib_000000.jpg" +:+ nl +:+ "/out/calib_dir.jpg" +:+ nl))
  ∧ fs st !! (out ++ ["calib_dir.jpg"]) = Some Dir
  ∧ fs st !! (out ++ ["calib_000001.png"]) = Some (File "png")
  ∧ fs st !! (out ++ ["calib_000002.png"]) = Some (File "png").
Proof. vm_compute. done. Qed.

(** ** The processing loop *)

Section Loop.
Context {RNG : Random} {CV : Cv2}.

(** [process_item] is the body of [process_loop]. *)
Lemma process_loop_step output_dir tw th q idx img_path image_paths n (st : state) :
  process_loop output_dir tw th q idx (img_path :: image_paths) n st
  = match process_item output_dir tw th q idx img_path st with
    | (Ok o, st') =>
        process_loop output_dir tw th q (S idx) image_paths
          (if decide (o = Saved) then S n else n) st'
    | (Raise e, st') => (Raise e, st')
    end.
Proof.
  simpl. unfold process_item, bind.
  destruct (load_image img_path st) as [[[img|]|e] st1]; simpl; [|done..].
  destruct (resize_if_needed img tw th st1) as [[resized|e] st2]; simpl; [|done].
  destruct (save_image resized _ q st2) as [[[|]|e] st3]; simpl; done.
Qed.

Lemma load_image_eq img_path (st : state) :
  load_image img_path st
  = match fs st !! img_path with
    | Some (File b) =>
        match imdecode b with
        | Some img => (Ok (Some img), st)
        | None => (Ok None, emit (Log WARNING (MsgDecodeFailed img_path)) st)
        end
    | _ => (Ok None, emit (Log WARNING (MsgDecodeFailed img_path)) st)
    end.
Proof.
  unfold load_image, bind, cv_imread. simpl.
  destruct (fs st !! img_path) as [[b|]|]; simpl; try done.
  by destruct (imdecode b).
Qed.

(** An image of the target size is returned as it is, without any
    effect. *)
Lemma resize_if_needed_same_size (img : ndarray) tw th (st : state) :
  shape img = (th, tw) → resize_if_needed img tw th st = (Ok img, st).
Proof.
  intros Hshape. unfold resize_if_needed. rewrite Hshape.
  by rewrite !bool_decide_eq_true_2.
Qed.

Lemma resize_if_needed_state (img : ndarray) tw th (st : state) :
  (resize_if_needed img tw th st).2 = st.
Proof.
  unfold resize_if_needed. destruct (shape img) as [h w].
  destruct (_ && _); [done|]. by destruct (cv_resize img tw th).
Qed.

Lemma save_image_eq (img : ndarray) output_path q (st : state) :
  save_image img output_path q st
  = match imencode img q with
    | Some b =>
        if bool_decide (stat (fs st) (parent output_path) = Some Dir)
           && negb (bool_decide (fs st !! output_path = Some Dir))
        then (Ok true, set_fs (<[output_path := File b]> (fs st)) st)
        else (Ok false, emit (Log ERROR (MsgImwriteFalse output_path)) st)
    | None => (Ok false, emit (Log ERROR (MsgImwriteFalse output_path)) st)
    end.
Proof.
  unfold save_image, bind, cv_imwrite, write_file.
  destruct (imencode img q) as [b|]; simpl; [|done].
  by destruct (_ && _).
Qed.


(** Listings after one write. *)
Lemma glob_fs_insert_fresh (f : FS) dir pat p x :
  f !! p = None → glob_match dir pat p = true →
  length (glob_fs (<[p := x]> f) dir pat) = S (length (glob_fs f dir pat)).
Proof.
  intros Hfresh Hmatch. unfold glob_fs, entries.
  rewrite (map_to_list_insert f p x Hfresh). simpl.
  rewrite filter_cons_True by done. done.
Qed.


End Loop.

Section LoopRun.
Context {RNG : Random} {CV : Cv2}.


Lemma calib_path_inj (dir : Path) i j :
  dir ++ [calib_name i] = dir ++ [calib_name j] → i = j.
Proof. intros Hij. apply (inj (λ n, dir ++ [n])) in Hij. by apply calib_name_inj. Qed.

Lemma calib_path_matches (dir : Path) i :
  glob_match dir calib_pattern (dir ++ [calib_name i]) = true.
Proof. rewrite glob_match_child by done. apply calib_name_matches. Qed.


End LoopRun.

(** ** Creation of the output directory *)

Section Mkdir.
Context {RNG : Random} {CV : Cv2}.

Lemma foldr_insert_dir_lookup (l : list Path) (f : FS) p :
  foldr (λ d f, <[d := Dir]> f) f l !! p
  = if bool_decide (p ∈ l) then Some Dir else f !! p.
Proof.
  induction l as [|d l IH]; simpl; [done|].
  destruct (decide (p = d)) as [->|Hne].
  - rewrite lookup_insert_eq. by rewrite bool_decide_eq_true_2 by apply list_elem_of_here.
  - rewrite lookup_insert_ne by done. rewrite IH.
    apply (f_equal (λ b : bool, if b then Some Dir else f !! p)).
    apply bool_decide_ext. rewrite elem_of_cons. split; [by right|by intros [?|?]].
Qed.

Lemma elem_of_ancestors_length (dir p : Path) :
  p ∈ ancestors_and_self dir → (length p ≤ length dir)%nat.
Proof.
  unfold ancestors_and_self. intros (i & -> & _)%list_elem_of_fmap.
  rewrite length_take. lia.
Qed.

Lemma self_in_ancestors (dir : Path) : dir ≠ [] → dir ∈ ancestors_and_self dir.
Proof.
  intros Hne. unfold ancestors_and_self. apply list_elem_of_fmap.
  exists (length dir). split; [by rewrite firstn_all|].
  apply elem_of_seq. destruct dir; [done|]. simpl. lia.
Qed.

Lemma child_not_ancestor (dir : Path) (n : string) :
  dir ++ [n] ∉ ancestors_and_self dir.
Proof.
  intros Hin%elem_of_ancestors_length. rewrite length_app in Hin. simpl in Hin. lia.
Qed.

(** A successful [mkdir_parents] makes the path a directory, keeps every
    entry that exists and touches nothing below the path. *)
Lemma mkdir_parents_true (dir : Path) (st st' : state) :
  mkdir_parents dir st = (Ok true, st') →
  cwd st' = cwd st ∧ gen st' = gen st ∧ trace st' = trace st
  ∧ stat (fs st') dir = Some Dir
  ∧ (∀ p, p ∉ ancestors_and_self dir → fs st' !! p = fs st !! p)
  ∧ (∀ p x, fs st !! p = Some x → fs st' !! p = Some x).
Proof.
  unfold mkdir_parents. case_bool_decide as Hfiles; [|done].
  intros [= <-]. unfold set_fs. cbn [fs cwd gen trace]. split_and!; try done.
  - destruct dir as [|d dir]; [done|]. unfold stat.
    rewrite foldr_insert_dir_lookup.
    by rewrite bool_decide_eq_true_2 by by apply self_in_ancestors.
  - intros p Hp. rewrite foldr_insert_dir_lookup.
    by rewrite bool_decide_eq_false_2.
  - intros p x Hx. rewrite foldr_insert_dir_lookup.
    case_bool_decide as Hp; [|done].
    rewrite Forall_forall in Hfiles. specialize (Hfiles p Hp).
    unfold is_file in Hfiles. rewrite Hx in Hfiles. by destruct x.
Qed.

Lemma mkdir_parents_result (dir : Path) (st : state) :
  (∃ st', mkdir_parents dir st = (Ok true, st'))
  ∨ mkdir_parents dir st = (Ok false, st).
Proof. unfold mkdir_parents. case_bool_decide; eauto. Qed.

Lemma process_images_eq image_paths output_dir tw th q (st : state) :
  process_images image_paths output_dir tw th q st
  = match mkdir_parents output_dir st with
    | (Ok true, st1) =>
        match process_loop output_dir tw th q 0 image_paths 0
                (emit (Log INFO (MsgProcessing (length image_paths)))
                   (clear_existing output_dir st1).2) with
        | (Ok successful, st2) =>
            (Ok successful,
             emit (Log INFO (MsgProcessed successful (length image_paths))) st2)
        | (Raise e, st2) => (Raise e, st2)
        end
    | (_, st1) => (Ok 0%nat, emit (Log ERROR (MsgMkdirFailed output_dir)) st1)
    end.
Proof.
  unfold process_images, bind.
  destruct (mkdir_parents_result output_dir st) as [[st1 ->]| ->]; simpl; [|done].
  destruct (clear_existing_frame output_dir st1) as (Hok & _).
  destruct (clear_existing output_dir st1) as [r st2]. simpl in *. subst r.
  destruct (process_loop _ _ _ _ _ _ _ _) as [[successful|e] st3]; done.
Qed.

End Mkdir.

(** ** The orchestrator *)

Section Main.
Context {RNG : Random} {CV : Cv2}.

Global Instance extends_refl : Reflexive extends.
Proof. intros st. exists []. by rewrite app_nil_r. Qed.

Global Instance extends_trans : Transitive extends.
Proof.
  intros st1 st2 st3 [es1 H1] [es2 H2]. exists (es1 ++ es2).
  by rewrite H2, H1, app_assoc.
Qed.

Lemma extends_emit e (st : state) : extends st (emit e st).
Proof. by exists [e]. Qed.

Lemma extends_emit_r e (st st' : state) : extends st st' → extends st (emit e st').
Proof. intros Hext. etrans; [done|apply extends_emit]. Qed.

Lemma extends_set_fs f (st st' : state) : extends st st' → extends st (set_fs f st').
Proof. intros [es Hes]. by exists es. Qed.

Lemma extends_set_gen g (st st' : state) : extends st st' → extends st (set_gen g st').
Proof. intros [es Hes]. by exists es. Qed.

Lemma extends_elem_of e (st st' : state) :
  extends st st' → e ∈ trace st → e ∈ trace st'.
Proof. intros [es ->] He. apply elem_of_app. by left. Qed.

Lemma sample_images_extends image_paths n a (st : state) :
  extends st (sample_images image_paths n a st).2.
Proof.
  unfold sample_images, bind, random_seed, random_sample, logger, ret. simpl.
  case_bool_decide; simpl.
  - apply extends_emit_r, extends_set_gen. reflexivity.
  - case_bool_decide; simpl.
    + apply extends_emit_r, extends_set_gen, extends_set_gen. reflexivity.
    + apply extends_set_gen. reflexivity.
Qed.

Lemma remove_old_files_extends old_files (st : state) :
  extends st (remove_old_files old_files st).2.
Proof.
  revert st. induction old_files as [|p l IH]; intros st; simpl; [reflexivity|].
  unfold bind, unlink. destruct (is_file (fs st) p); simpl.
  - etrans; [|apply IH]. apply extends_set_fs. reflexivity.
  - etrans; [|apply IH]. apply extends_emit.
Qed.

Lemma clear_existing_extends output_dir (st : state) :
  extends st (clear_existing output_dir st).2.
Proof. unfold clear_existing, bind, glob. simpl. apply remove_old_files_extends. Qed.

(** With nothing to process, [process_images] reports zero images. *)
Lemma process_images_nil output_dir tw th q (st : state) :
  (process_images [] output_dir tw th q st).1 = Ok 0%nat
  ∧ extends st (process_images [] output_dir tw th q st).2.
Proof.
  rewrite process_images_eq.
  destruct (mkdir_parents_result output_dir st) as [[st1 Hmk]|Hmk]; rewrite Hmk.
  - simpl. split; [done|].
    apply mkdir_parents_true in Hmk as (_ & _ & Htr & _).
    apply extends_emit_r, extends_emit_r. etrans; [|apply clear_existing_extends].
    exists []. by rewrite app_nil_r.
  - simpl. split; [done|]. apply extends_emit.
Qed.

(** The exception handlers of [main]. *)
Lemma main_raise args (st st1 : state) e :
  main_body args st = (Raise e, st1) →
  (main args st).1 = Ok 1 ∧ extends st1 (main args st).2.
Proof.
  intros Hbody. unfold main, try_except. rewrite Hbody.
  destruct e; simpl; (split; [done|apply extends_emit]).
Qed.

Lemma main_ok args (st st1 : state) code :
  main_body args st = (Ok code, st1) → main args st = (Ok code, st1).
Proof. intros Hbody. unfold main, try_except. by rewrite Hbody. Qed.

(** C3, as the program has it.  A sample count of zero or less is never
    checked up front: the run ends with exit status 1, but when the source
    directory exists the first thing it does is to traverse the source
    tree, once for every pattern. *)
Theorem nonpositive_count_run (args : arguments) (st : state) :
  num_images args ≤ 0 →
  (main args st).1 = Ok 1
  ∧ (stat (fs st) (source_dir args) = Some Dir →
     ∃ rest, trace (main args st).2
             = trace st ++ traversals (source_dir args) default_extensions ++ rest).
Proof.
  intros Hn.
  destruct (decide (stat (fs st) (source_dir args) = Some Dir)) as [Hdir|Hdir].
  - assert (∀ st1 : state,
              extends (add_trace (traversals (source_dir args) default_extensions) st) st1 →
              ∃ rest, trace st1
                      = trace st ++ traversals (source_dir args) default_extensions ++ rest)
      as Hrest.
    { intros st1 [es Hes]. exists es. rewrite Hes. unfold add_trace.
      cbn [trace]. by rewrite <- app_assoc. }
    pose proof (collect_image_paths_eq (source_dir args) default_extensions st Hdir)
      as Hcollect.
    destruct (sorted_set _) as [|p corpus] eqn:Hcorpus.
    { assert (main_body args st
              = (Raise (ValueError (NoImagesFound (source_dir args))),
                 add_trace (traversals (source_dir args) default_extensions) st))
        as [Hcode Hext]%main_raise.
      { unfold main_body, bind. by rewrite Hcollect. }
      split; [done|]. intros _. by apply Hrest. }
    cbv zeta in Hcollect. set (st1 := emit _ _) in Hcollect.
    assert (extends (add_trace (traversals (source_dir args) default_extensions) st) st1)
      as Hst1 by apply extends_emit.
    destruct (decide (num_images args < 0)) as [Hneg|Hzero].
    { assert (main_body args st
              = (Raise (ValueError SampleLargerOrNegative),
                 set_gen (rng_seed (seed args)) st1)) as [Hcode Hext]%main_raise.
      { unfold main_body, bind. rewrite Hcollect.
        by rewrite sample_images_negative. }
      split; [done|]. intros _. apply Hrest.
      etrans; [|done]. by apply extends_set_gen. }
    assert (num_images args = 0) as Hnum by lia.
    destruct (sample_images_zero (p :: corpus) (seed args) st1 ltac:(done))
      as (st2 & Hsample & _).
    pose proof (sample_images_extends (p :: corpus) 0 (seed args) st1) as Hst2.
    rewrite Hsample in Hst2. simpl in Hst2.
    destruct (process_images_nil (output_dir args) (width args) (height args)
                (quality args) st2) as [Hzero_images Hst3].
    destruct (process_images [] _ _ _ _ st2) as [r st3] eqn:Hprocess.
    simpl in Hzero_images, Hst3. subst r.
    assert (main args st = (Ok 1, emit (Log ERROR MsgNoneProcessed) st3)) as ->.
    { apply main_ok. unfold main_body, bind. rewrite Hcollect, Hnum, Hsample.
      by rewrite Hprocess. }
    split; [done|]. intros _. apply Hrest.
    apply extends_emit_r. by repeat (etrans; [done|]).
  - destruct (collect_image_paths_missing _ default_extensions _ Hdir) as [e He].
    assert (main_body args st = (Raise (ValueError e), st)) as [Hcode _]%main_raise.
    { unfold main_body, bind. by rewrite He. }
    split; [done|]. intros ?. done.
Qed.

End Main.

(** C3, as stated, fails: with a sample count of 0, and with one of -5,
    the run traverses the source tree. *)
Lemma nonpositive_count_traverses :
  let st := initial_state tree_siblings in
  trace st = []
  ∧ num_images (example_args 0) ≤ 0
  ∧ Traverse ["/"; "data"] "*.jpg" ∈ trace (main (example_args 0) st).2
  ∧ num_images (example_args (-5)) ≤ 0
  ∧ Traverse ["/"; "data"] "*.jpg" ∈ trace (main (example_args (-5)) st).2.
Proof.
  split_and!.
  - reflexivity.
  - simpl. lia.
  - vm_compute. apply list_elem_of_here.
  - simpl. lia.
  - vm_compute. apply list_elem_of_here.
Qed.

Lemma nonpositive_count_run_witness :
  let st := initial_state tree_siblings in
  (main (example_args 0) st).1 = Ok 1
  ∧ (stat (fs st) ["/"; "data"] = Some Dir →
     ∃ rest, trace (main (example_args 0) st).2
             = trace st ++ traversals ["/"; "data"] default_extensions ++ rest).
Proof.
  apply (nonpositive_count_run (example_args 0) (initial_state tree_siblings)).
  simpl. lia.
Defined.

(** ** Images that already have the target size *)

Section SameSize.
Context {RNG : Random} {CV : Cv2}.

(** C6, as the program has it.  An item whose decoded raster has the
    target size is not resampled: [resize_if_needed] returns the raster
    itself.  It is then encoded again: the file written under the output
    name holds the JPEG encoding of the raster at the configured quality,
    whatever the bytes of the source file were. *)
Theorem same_size_image_saved output_dir tw th q idx img_path image_paths n
    (st : state) (b b' : string) (img : ndarray) :
  fs st !! img_path = Some (File b) →
  imdecode b = Some img →
  shape img = (th, tw) →
  imencode img q = Some b' →
  stat (fs st) output_dir = Some Dir →
  fs st !! (output_dir ++ [calib_name idx]) ≠ Some Dir →
  resize_if_needed img tw th st = (Ok img, st)
  ∧ process_loop output_dir tw th q idx (img_path :: image_paths) n st
    = process_loop output_dir tw th q (S idx) image_paths (S n)
        (emit (Log DEBUG (MsgSaved (output_dir ++ [calib_name idx])))
           (set_fs (<[output_dir ++ [calib_name idx] := File b']> (fs st)) st)).
Proof.
  intros Hfile Hdecode Hshape Hencode Hdir Hout.
  split; [by apply resize_if_needed_same_size|].
  rewrite process_loop_step. unfold process_item, bind.
  rewrite load_image_eq, Hfile, Hdecode.
  rewrite resize_if_needed_same_size by done.
  rewrite save_image_eq, Hencode, parent_child.
  rewrite bool_decide_eq_true_2 by done.
  rewrite bool_decide_eq_false_2 by done. done.
Qed.

End SameSize.

Lemma same_size_image_saved_witness :
  let st := set_fs (<[["/"; "out"] := Dir]> tree_siblings) (initial_state ∅) in
  let img := Raster 1 2 ["a"; "b"]%char in
  resize_if_needed img 2 1 st = (Ok img, st)
  ∧ process_loop ["/"; "out"] 2 1 95 0 [["/"; "data"; "a"; "b.jpg"]] 0 st
    = process_loop ["/"; "out"] 2 1 95 1 [] 1
        (emit (Log DEBUG (MsgSaved (["/"; "out"] ++ [calib_name 0])))
           (set_fs (<[["/"; "out"] ++ [calib_name 0] := raster_file 1 2 "`b"]> (fs st))
              st)).
Proof.
  apply (same_size_image_saved (CV := raster_cv2) ["/"; "out"] 2 1 95 0 ["/"; "data"; "a"; "b.jpg"] [] 0
           (set_fs (<[["/"; "out"] := Dir]> tree_siblings) (initial_state ∅))
           (raster_bytes 1 2 "ab") (raster_bytes 1 2 "`b")
           (Raster 1 2 ["a"; "b"]%char)).
  - vm_compute. reflexivity.
  - vm_compute. reflexivity.
  - reflexivity.
  - vm_compute. reflexivity.
  - vm_compute. reflexivity.
  - vm_compute. discriminate.
Defined.

(** C6, as stated, fails: the image [/data/a/b.jpg] already has the target
    size, and the output file written for it differs from it, in its bytes
    and in the raster they decode to. *)
Lemma same_size_image_changed :
  let st := initial_state tree_siblings in
  let source := raster_file 1 2 "ab" in
  let written := raster_file 1 2 "`b" in
  fs st !! ["/"; "data"; "a"; "b.jpg"] = Some source
  ∧ shape <$> raster_decode (raster_bytes 1 2 "ab")
    = Some (height (example_args 300), width (example_args 300))
  ∧ fs (main (example_args 300) st).2 !! ["/"; "out"; "calib_000000.jpg"]
    = Some written
  ∧ written ≠ source
  ∧ raster_decode (raster_bytes 1 2 "`b") ≠ raster_decode (raster_bytes 1 2 "ab").
Proof.
  split_and!; try (vm_compute; reflexivity); vm_compute; discriminate.
Qed.

(** ** Runs with one undecodable image *)

Section OneFailure.
Context {RNG : Random} {CV : Cv2}.







End OneFailure.



(** * The export script: [find_optimal_size] *)

Lemma round_up_bounds (x p : Z) :
  0 < p →
  let r := (x + p - 1) / p * p in
  (p | r) ∧ x ≤ r < x + p.
Proof.
  intros Hp r. split.
  - by apply Z.divide_factor_r.
  - unfold r. pose proof (Z.mod_pos_bound (x + p - 1) p Hp) as Hmod.
    pose proof (Z.div_mod (x + p - 1) p ltac:(lia)) as Hdiv. lia.
Qed.

Lemma round_up_least (x p m : Z) :
  0 < p → (p | m) → x ≤ m → (x + p - 1) / p * p ≤ m.
Proof.
  intros Hp [k ->] Hx.
  apply Z.mul_le_mono_nonneg_r; [lia|].
  apply Z.lt_succ_r. apply Z.div_lt_upper_bound; [done|]. lia.
Qed.

Lemma find_optimal_size_nonzero (h w p : Z) :
  p ≠ 0 →
  find_optimal_size (h, w) p
  = Some ((h + p - 1) / p * p, (w + p - 1) / p * p).
Proof.
  intros Hp. unfold find_optimal_size, floordiv.
  destruct (decide (p = 0)); [done|]. reflexivity.
Qed.

(** X1. With a positive patch size, [find_optimal_size] succeeds and
    returns for each of the two sizes a multiple of the patch size that is
    at least the size and less than the size plus the patch size. *)
Theorem find_optimal_size_round_up (h w p : Z) :
  0 < p →
  ∃ h' w', find_optimal_size (h, w) p = Some (h', w')
           ∧ (p | h') ∧ h ≤ h' < h + p
           ∧ (p | w') ∧ w ≤ w' < w + p.
Proof.
  intros Hp. rewrite find_optimal_size_nonzero by lia.
  destruct (round_up_bounds h p Hp) as [Hh1 Hh2].
  destruct (round_up_bounds w p Hp) as [Hw1 Hw2].
  eexists _, _. split; [reflexivity|]. split_and!; tauto || lia.
Qed.

Lemma find_optimal_size_round_up_witness :
  ∃ h' w', find_optimal_size (384, 640) 14 = Some (h', w')
           ∧ (14 | h') ∧ 384 ≤ h' < 384 + 14
           ∧ (14 | w') ∧ 640 ≤ w' < 640 + 14.
Proof. apply (find_optimal_size_round_up 384 640 14). lia. Defined.

(** X2. The sizes returned are the least multiples of the patch size that
    are not below the requested sizes. *)
Theorem find_optimal_size_least (h w p h' w' : Z) :
  0 < p →
  find_optimal_size (h, w) p = Some (h', w') →
  (∀ m, (p | m) → h ≤ m → h' ≤ m) ∧ (∀ m, (p | m) → w ≤ m → w' ≤ m).
Proof.
  intros Hp. rewrite find_optimal_size_nonzero by lia. intros [= <- <-].
  split; intros m Hm Hle; by apply round_up_least.
Qed.

Lemma find_optimal_size_least_witness :
  (∀ m, (14 | m) → 384 ≤ m → 392 ≤ m) ∧ (∀ m, (14 | m) → 640 ≤ m → 644 ≤ m).
Proof.
  apply (find_optimal_size_least 384 640 14 392 644); [lia|].
  vm_compute. reflexivity.
Defined.

(** X3. Sizes that are multiples of the patch size are returned unchanged,
    and only those; so applying the function to its own result changes
    nothing. *)
Theorem find_optimal_size_fixed (h w p : Z) :
  0 < p →
  (find_optimal_size (h, w) p = Some (h, w) ↔ (p | h) ∧ (p | w))
  ∧ ∀ s, find_optimal_size (h, w) p = Some s → find_optimal_size s p = Some s.
Proof.
  intros Hp.
  assert (∀ x, (x + p - 1) / p * p = x ↔ (p | x)) as Hfix.
  { intros x. destruct (round_up_bounds x p Hp) as [Hdiv Hb]. split.
    - intros <-. done.
    - intros Hx. pose proof (round_up_least x p x Hp Hx ltac:(lia)). lia. }
  split.
  - rewrite find_optimal_size_nonzero by lia.
    rewrite <- !Hfix. split; [intros [= Hh Hw]; by rewrite Hh, Hw|].
    intros [Hh Hw]. by rewrite Hh, Hw.
  - intros [h' w'] Hs.
    rewrite find_optimal_size_nonzero in Hs by lia. injection Hs as <- <-.
    destruct (round_up_bounds h p Hp) as [Hh _].
    destruct (round_up_bounds w p Hp) as [Hw _].
    rewrite find_optimal_size_nonzero by lia.
    by rewrite (proj2 (Hfix _) Hh), (proj2 (Hfix _) Hw).
Qed.

Lemma find_optimal_size_fixed_witness :
  (find_optimal_size (392, 644) 14 = Some (392, 644) ↔ (14 | 392) ∧ (14 | 644))
  ∧ ∀ s, find_optimal_size (392, 644) 14 = Some s → find_optimal_size s 14 = Some s.
Proof. apply (find_optimal_size_fixed 392 644 14). lia. Defined.

(** X4. A patch size of zero makes the function fail (the division
    raises), and zero is the only patch size that does. *)
Theorem find_optimal_size_zero_patch (h w p : Z) :
  find_optimal_size (h, w) p = None ↔ p = 0.
Proof.
  unfold find_optimal_size, floordiv. destruct (decide (p = 0)); simpl.
  - done.
  - split; [done|by intros ?].
Qed.

(** * Further properties of the calibration pipeline *)

(** ** Rejected source directories *)

Section Rejections.
Context {RNG : Random} {CV : Cv2}.

(** The outcome of [collect_image_paths], by what the source path is. *)
Lemma collect_image_paths_cases (source_dir : Path) (extensions : list string)
    (st : state) :
  collect_image_paths source_dir extensions st
  = match stat (fs st) source_dir with
    | None => (Raise (ValueError (SourceNotFound source_dir)), st)
    | Some (File _) => (Raise (ValueError (SourceNotADirectory source_dir)), st)
    | Some Dir =>
        let searched := add_trace (traversals source_dir extensions) st in
        if decide (found_all (fs st) source_dir extensions = [])
        then (Raise (ValueError (NoImagesFound source_dir)), searched)
        else (Ok (sorted_set (found_all (fs st) source_dir extensions)),
              emit (Log INFO
                      (MsgFound
                         (length (sorted_set (found_all (fs st) source_dir extensions)))
                         source_dir)) searched)
    end.
Proof.
  destruct (stat (fs st) source_dir) as [[c|]|] eqn:Hstat.
  - unfold collect_image_paths, bind, path_exists, path_is_dir. simpl.
    rewrite Hstat. rewrite bool_decide_eq_true_2 by eauto. simpl.
    rewrite Hstat. by rewrite bool_decide_eq_false_2.
  - rewrite collect_image_paths_eq by done. cbv zeta.
    destruct (decide (found_all (fs st) source_dir extensions = [])) as [Hnil|Hne].
    + by rewrite Hnil.
    + destruct (sorted_set _) as [|p l] eqn:Hsorted; [|done].
      destruct Hne. destruct (found_all _ _ _) as [|q l']; [done|].
      assert (q ∈ sorted_set (q :: l')) as Hq
        by (apply elem_of_sorted_set, list_elem_of_here).
      rewrite Hsorted in Hq. by apply elem_of_nil in Hq.
  - unfold collect_image_paths, bind, path_exists, path_is_dir. simpl.
    rewrite Hstat. rewrite bool_decide_eq_false_2; [done|]. by intros [? ?].
Qed.

(** X5. [collect_image_paths] raises exactly three errors: a source path
    that does not exist and one that is a regular file are rejected with
    their own [ValueError] before any search, leaving the state as it
    was; an existing directory below which no name matches is rejected
    with a third one after the searches; in every other case the corpus is
    returned. *)
Theorem collect_image_paths_outcomes (source_dir : Path) (extensions : list string)
    (st : state) :
  collect_image_paths source_dir extensions st
  = match stat (fs st) source_dir with
    | None => (Raise (ValueError (SourceNotFound source_dir)), st)
    | Some (File _) => (Raise (ValueError (SourceNotADirectory source_dir)), st)
    | Some Dir =>
        let searched := add_trace (traversals source_dir extensions) st in
        if decide (found_all (fs st) source_dir extensions = [])
        then (Raise (ValueError (NoImagesFound source_dir)), searched)
        else (Ok (sorted_set (found_all (fs st) source_dir extensions)),
              emit (Log INFO
                      (MsgFound
                         (length (sorted_set (found_all (fs st) source_dir extensions)))
                         source_dir)) searched)
    end.
Proof.
  destruct (stat (fs st) source_dir) as [[c|]|] eqn:Hstat.
  - unfold collect_image_paths, bind, path_exists, path_is_dir. simpl.
    rewrite Hstat. rewrite bool_decide_eq_true_2 by eauto. simpl.
    rewrite Hstat. by rewrite bool_decide_eq_false_2.
  - rewrite collect_image_paths_eq by done. cbv zeta.
    destruct (decide (found_all (fs st) source_dir extensions = [])) as [Hnil|Hne].
    + by rewrite Hnil.
    + destruct (sorted_set _) as [|p l] eqn:Hsorted; [|done].
      destruct Hne. destruct (found_all _ _ _) as [|q l']; [done|].
      assert (q ∈ sorted_set (q :: l')) as Hq
        by (apply elem_of_sorted_set, list_elem_of_here).
      rewrite Hsorted in Hq. by apply elem_of_nil in Hq.
  - unfold collect_image_paths, bind, path_exists, path_is_dir. simpl.
    rewrite Hstat. rewrite bool_decide_eq_false_2; [done|]. by intros [? ?].
Qed.

Lemma collect_image_paths_fs (source_dir : Path) (extensions : list string)
    (st : state) :
  fs (collect_image_paths source_dir extensions st).2 = fs st.
Proof.
  rewrite collect_image_paths_cases.
  destruct (stat (fs st) source_dir) as [[c|]|]; [done| |done].
  cbv zeta. by destruct (decide _).
Qed.

(** X6. When [collect_image_paths] raises, [main] exits with status 1,
    its last log record is the validation error, and the file system is as
    it was: the output directory is not created and old outputs are not
    cleared. *)
Theorem main_validation_error (args : arguments) (st : state) (v : value_error) :
  (collect_image_paths (source_dir args) default_extensions st).1
  = Raise (ValueError v) →
  (main args st).1 = Ok 1
  ∧ fs (main args st).2 = fs st
  ∧ last (trace (main args st).2) = Some (Log ERROR (MsgValidationError v)).
Proof.
  intros Hraise.
  pose proof (collect_image_paths_fs (source_dir args) default_extensions st) as Hfs.
  destruct (collect_image_paths _ _ st) as [r st1] eqn:Hcollect.
  cbn [fst snd] in *. subst r.
  unfold main, try_except, main_body, bind. rewrite Hcollect.
  unfold logger, ret. cbn [fst snd fs emit trace].
  split_and!; [done..|]. apply last_snoc.
Qed.

End Rejections.

Lemma main_validation_error_witness :
  let args := Arguments ["/"; "nowhere"] ["/"; "out"] 300 2 1 42 95 false in
  let st := initial_state tree_stale_output in
  (main args st).1 = Ok 1
  ∧ fs (main args st).2 = fs st
  ∧ last (trace (main args st).2)
    = Some (Log ERROR (MsgValidationError (SourceNotFound ["/"; "nowhere"]))).
Proof.
  apply (main_validation_error
           (Arguments ["/"; "nowhere"] ["/"; "out"] 300 2 1 42 95 false)
           (initial_state tree_stale_output)).
  vm_compute. reflexivity.
Defined.

(** ** What the corpus holds *)

Section CorpusElements.
Context {RNG : Random} {CV : Cv2}.

Lemma upper_char_literal c :
  literal_char c = true → literal_char (upper_char c) = true.
Proof.
  destruct c as [[] [] [] [] [] [] [] []]; vm_compute; congruence.
Qed.

Lemma wild_free_upper s : wild_free s = true → wild_free (upper s) = true.
Proof.
  induction s as [|c s IH]; simpl; [done|].
  rewrite !andb_true_iff. intros [Hc Hs].
  split; [by apply upper_char_literal|by apply IH].
Qed.

(** X7. For a source directory and a file system in resolved form and
    suffixes made of ASCII characters other than [*], [?], [[] and [/] (as
    the default ones are), the corpus holds exactly the entries strictly
    below the source directory, at any depth, whose name ends in one of
    the suffixes as it is written or in its upper-case form. *)
Theorem corpus_elements (source_dir : Path) (extensions : list string)
    (st st' : state) (corpus : list Path) :
  normal source_dir = true →
  resolved_fs (fs st) →
  Forall (λ ext, wild_free ext = true) extensions →
  collect_image_paths source_dir extensions st = (Ok corpus, st') →
  ∀ p, p ∈ corpus ↔
       is_Some (fs st !! p)
       ∧ ∃ sub stem ext, ext ∈ extensions
           ∧ (p = source_dir ++ sub ++ [stem +:+ ext]
              ∨ p = source_dir ++ sub ++ [stem +:+ upper ext]).
Proof.
  intros Hnormal%normal_nonempty _ Hfree Hrun p.
  rewrite (elem_of_corpus _ _ _ _ _ _ Hrun).
  rewrite Forall_forall in Hfree.
  split; intros [Hsome Hmatch]; (split; [done|]).
  - destruct Hmatch as (ext & Hext & [Hm|Hm]);
      apply rglob_match_spec in Hm as (sub & n & -> & Hn);
      apply fnmatch_suffix in Hn as [stem ->];
      eauto 10 using wild_free_upper.
  - destruct Hmatch as (sub & stem & ext & Hext & [-> | ->]);
      exists ext; (split; [done|]).
    + left. apply rglob_match_below; [done|]. apply fnmatch_suffix; eauto.
    + right. apply rglob_match_below; [done|].
      apply fnmatch_suffix; eauto using wild_free_upper.
Qed.

End CorpusElements.

Lemma corpus_elements_witness :
  let st := initial_state tree_mixed_case in
  let p := ["/"; "data"; "b.JPG"] in
  p ∈ [["/"; "data"; "a.jpg"]; ["/"; "data"; "b.JPG"]] ↔
  is_Some (fs st !! p)
  ∧ ∃ sub stem ext, ext ∈ default_extensions
      ∧ (p = ["/"; "data"] ++ sub ++ [stem +:+ ext]
         ∨ p = ["/"; "data"] ++ sub ++ [stem +:+ upper ext]).
Proof.
  apply (corpus_elements ["/"; "data"] default_extensions
           (initial_state tree_mixed_case)
           (collect_image_paths ["/"; "data"] default_extensions
              (initial_state tree_mixed_case)).2
           [["/"; "data"; "a.jpg"]; ["/"; "data"; "b.JPG"]]).
  - reflexivity.
  - vm_compute. repeat constructor.
  - repeat constructor.
  - vm_compute. reflexivity.
Defined.

(** ** The size and order of the SampleSet *)

Section SampleSize.
Context {RNG : Random} {CV : Cv2}.

(** X8. For a sample count that is not negative, [sample_images] succeeds
    and returns [min(num_samples, len(image_paths))] paths, none of them
    more often than it occurs in the corpus; the result is ascending and
    free of duplicates when the corpus is. *)
Theorem sample_images_size (image_paths : list Path) (num_samples seed : Z)
    (st : state) :
  0 ≤ num_samples →
  ∃ selected st',
    sample_images image_paths num_samples seed st = (Ok selected, st')
    ∧ length selected = Nat.min (Z.to_nat num_samples) (length image_paths)
    ∧ selected ⊆+ image_paths
    ∧ (StronglySorted path_le image_paths → StronglySorted path_le selected)
    ∧ (NoDup image_paths → NoDup selected).
Proof.
  intros Hn.
  destruct (decide (Z.of_nat (length image_paths) ≤ num_samples)) as [Hsmall|Hlarge].
  - rewrite sample_images_small by done. eexists _, _.
    split_and!; [done|lia|done..].
  - unfold sample_images, bind, random_seed, random_sample, logger, ret.
    cbn [fst snd gen set_gen].
    rewrite bool_decide_eq_false_2 by done.
    rewrite bool_decide_eq_true_2 by lia. cbn [fst snd].
    set (draw := (rng_sample (rng_seed seed) image_paths (Z.to_nat num_samples)).1).
    assert (length draw = Z.to_nat num_samples) as Hlen
      by (apply rng_sample_length; lia).
    assert (draw ⊆+ image_paths) as Hsub by (apply rng_sample_submseteq; lia).
    exists (sorted draw). eexists. split_and!; [done|..].
    + rewrite sorted_length, Hlen. lia.
    + by rewrite sorted_Permutation.
    + intros _. apply sorted_StronglySorted.
    + intros Hnodup. rewrite sorted_Permutation.
      apply submseteq_Permutation in Hsub as [rest Hrest].
      rewrite Hrest in Hnodup. by apply NoDup_app in Hnodup as [? _].
Qed.

End SampleSize.

Lemma sample_images_size_witness :
  ∃ selected st',
    sample_images [["a.jpg"]; ["b.jpg"]; ["c.png"]] 2 42 (initial_state ∅)
    = (Ok selected, st')
    ∧ length selected = Nat.min (Z.to_nat 2) 3
    ∧ selected ⊆+ [["a.jpg"]; ["b.jpg"]; ["c.png"]]
    ∧ (StronglySorted path_le [["a.jpg"]; ["b.jpg"]; ["c.png"]]
       → StronglySorted path_le selected)
    ∧ (NoDup [["a.jpg"]; ["b.jpg"]; ["c.png"]] → NoDup selected).
Proof.
  apply (sample_images_size [["a.jpg"]; ["b.jpg"]; ["c.png"]] 2 42 (initial_state ∅)).
  lia.
Defined.

(** ** What the writer changes *)

Section WriterFrame.
Context {RNG : Random} {CV : Cv2}.

(** One item either leaves the file system as it is, or is saved: then
    its output name was not a directory and now holds a regular file. *)
Lemma process_item_fs output_dir tw th q idx img_path (st : state) :
  let r := process_item output_dir tw th q idx img_path st in
  (r.1 ≠ Ok Saved ∧ fs r.2 = fs st)
  ∨ (r.1 = Ok Saved
     ∧ fs st !! (output_dir ++ [calib_name idx]) ≠ Some Dir
     ∧ ∃ b, fs r.2 = <[output_dir ++ [calib_name idx] := File b]> (fs st)).
Proof.
  simpl. unfold process_item, bind. rewrite load_image_eq.
  destruct (fs st !! img_path) as [[b|]|]; try (left; by split).
  destruct (imdecode b) as [img|]; [|left; by split].
  pose proof (resize_if_needed_state img tw th st) as Hst.
  destruct (resize_if_needed img tw th st) as [[resized|e] s]; simpl in Hst; subst s;
    [|left; by split].
  rewrite save_image_eq.
  destruct (imencode resized q) as [b'|]; [|left; by split].
  rewrite parent_child.
  destruct (bool_decide (stat (fs st) output_dir = Some Dir)); [|left; by split].
  case_bool_decide as Hdir; simpl; [left; by split|].
  right. split_and!; [done..|]. by exists b'.
Qed.

Lemma process_loop_frame output_dir tw th q image_paths :
  ∀ idx n (st : state) p,
  glob_match output_dir calib_pattern p = false →
  fs (process_loop output_dir tw th q idx image_paths n st).2 !! p = fs st !! p.
Proof.
  induction image_paths as [|img_path image_paths IH]; intros idx n st p Hp; [done|].
  rewrite process_loop_step.
  pose proof (process_item_fs output_dir tw th q idx img_path st) as Hitem.
  destruct (process_item output_dir tw th q idx img_path st) as [[o|e] st1].
  - rewrite IH by done. simpl in Hitem.
    destruct Hitem as [[_ ->]|(_ & _ & b & ->)]; [done|].
    rewrite lookup_insert_ne; [done|]. intros <-.
    by rewrite calib_path_matches in Hp.
  - simpl in *. by destruct Hitem as [[_ ->]|([=] & _)].
Qed.

(** X9. [process_images] changes nothing but outputs.  For image paths,
    an output directory and a file system in resolved form: whatever the
    run does
    (also when an exception ends it), every entry of the file system that
    is not an entry of the output directory named [calib_*.jpg] is still
    there afterwards, unchanged; so are the source images that are not
    such entries.  The only other entries that may appear are the output
    directory and its missing ancestors. *)
Theorem process_images_frame (image_paths : list Path) (output_dir : Path)
    (tw th q : Z) (st : state) (p : Path) :
  Forall (λ img_path, normal img_path = true) image_paths →
  normal output_dir = true →
  resolved_fs (fs st) →
  glob_match output_dir calib_pattern p = false →
  let after := fs (process_images image_paths output_dir tw th q st).2 in
  (∀ x, fs st !! p = Some x → after !! p = Some x)
  ∧ (p ∉ ancestors_and_self output_dir → after !! p = fs st !! p).
Proof.
  intros _ _ _ Hp. simpl. rewrite process_images_eq.
  destruct (mkdir_parents_result output_dir st) as [[st1 Hmk]|Hmk]; rewrite Hmk;
    [|by split].
  apply mkdir_parents_true in Hmk as (_ & _ & _ & _ & Hframe & Hkeep).
  assert (fs (process_loop output_dir tw th q 0 image_paths 0
                (emit (Log INFO (MsgProcessing (length image_paths)))
                   (clear_existing output_dir st1).2)).2 !! p
          = fs st1 !! p) as Hloop.
  { rewrite process_loop_frame by done. cbn [fs emit].
    by rewrite clear_existing_lookup, Hp. }
  destruct (process_loop _ _ _ _ _ _ _ _) as [[n|e] st2]; cbn [fst snd fs emit] in *;
    rewrite Hloop; split; auto.
Qed.

(** X10. When the output path or one of its ancestors is a regular file, the
    output directory cannot be created: [process_images] returns 0 at
    once, logs one error and leaves the file system as it was (old outputs
    are not cleared, nothing is written). *)
Theorem process_images_blocked (image_paths : list Path) (output_dir : Path)
    (tw th q : Z) (st : state) (d : Path) :
  d ∈ ancestors_and_self output_dir →
  is_file (fs st) d = true →
  process_images image_paths output_dir tw th q st
  = (Ok 0%nat, emit (Log ERROR (MsgMkdirFailed output_dir)) st).
Proof.
  intros Hd Hfile. rewrite process_images_eq. unfold mkdir_parents.
  rewrite bool_decide_eq_false_2; [done|].
  rewrite Forall_forall. intros Hall. specialize (Hall d Hd). congruence.
Qed.

End WriterFrame.

Lemma process_images_frame_witness :
  let st := initial_state tree_one_corrupt in
  let p := ["/"; "data"; "a.jpg"] in
  let after := fs (process_images [["/"; "data"; "a.jpg"]; ["/"; "data"; "b.jpg"]]
                     ["/"; "out"] 2 1 95 st).2 in
  (∀ x, fs st !! p = Some x → after !! p = Some x)
  ∧ (p ∉ ancestors_and_self ["/"; "out"] → after !! p = fs st !! p).
Proof.
  apply (process_images_frame [["/"; "data"; "a.jpg"]; ["/"; "data"; "b.jpg"]]
           ["/"; "out"] 2 1 95 (initial_state tree_one_corrupt)
           ["/"; "data"; "a.jpg"]).
  - repeat constructor.
  - reflexivity.
  - vm_compute. repeat constructor.
  - vm_compute. reflexivity.
Defined.

Lemma process_images_blocked_witness :
  let st := initial_state tree_one_corrupt in
  process_images [["/"; "data"; "a.jpg"]] ["/"; "data"; "a.jpg"; "out"] 2 1 95 st
  = (Ok 0%nat,
     emit (Log ERROR (MsgMkdirFailed ["/"; "data"; "a.jpg"; "out"])) st).
Proof.
  apply (process_images_blocked [["/"; "data"; "a.jpg"]]
           ["/"; "data"; "a.jpg"; "out"] 2 1 95 (initial_state tree_one_corrupt)
           ["/"; "data"; "a.jpg"]).
  - vm_compute. repeat constructor.
  - vm_compute. reflexivity.
Defined.

(** ** The count of saved images and the contents of the output directory *)

Section WriterCount.
Context {RNG : Random} {CV : Cv2}.

Lemma process_loop_count output_dir tw th q image_paths :
  ∀ idx n (st st' : state) n',
  process_loop output_dir tw th q idx image_paths n st = (Ok n', st') →
  (∀ j, (idx ≤ j)%nat → is_file (fs st) (output_dir ++ [calib_name j]) = false) →
  (n ≤ n' ≤ n + length image_paths)%nat
  ∧ length (glob_fs (fs st') output_dir calib_pattern)
    = (length (glob_fs (fs st) output_dir calib_pattern) + (n' - n))%nat.
Proof.
  induction image_paths as [|img_path image_paths IH]; intros idx n st st' n' Hrun Hfree.
  - simpl in Hrun. injection Hrun as <- <-. simpl. split; lia.
  - rewrite process_loop_step in Hrun.
    pose proof (process_item_fs output_dir tw th q idx img_path st) as Hitem.
    destruct (process_item output_dir tw th q idx img_path st) as [[o|e] st1];
      [|done]. cbn [fst snd] in Hitem.
    destruct Hitem as [[Ho Hfs]|(Ho & Hnodir & b & Hfs)].
    + assert (o ≠ Saved) as Ho' by congruence.
      rewrite decide_False in Hrun by done.
      apply IH in Hrun as [Hn Hglob].
      * rewrite Hglob, Hfs. simpl. split; lia.
      * intros j Hj. rewrite Hfs. apply Hfree. lia.
    + injection Ho as ->. rewrite decide_True in Hrun by done.
      assert (fs st !! (output_dir ++ [calib_name idx]) = None) as Hfresh.
      { specialize (Hfree idx ltac:(lia)). unfold is_file in Hfree.
        by destruct (fs st !! _) as [[c|]|]. }
      apply IH in Hrun as [Hn Hglob].
      * rewrite Hglob, Hfs.
        rewrite glob_fs_insert_fresh by (done || apply calib_path_matches).
        simpl. split; lia.
      * intros j Hj. rewrite Hfs. unfold is_file.
        rewrite lookup_insert_ne; [apply Hfree; lia|].
        intros Heq%calib_path_inj. lia.
Qed.

(** The output directory after the cleanup: only directories are left
    under output names. *)
Lemma clear_existing_glob output_dir (st : state) :
  glob_fs (fs (clear_existing output_dir st).2) output_dir calib_pattern
  ≡ₚ filter (λ p, fs st !! p = Some Dir) (glob_fs (fs st) output_dir calib_pattern).
Proof.
  apply NoDup_Permutation.
  - apply glob_fs_NoDup.
  - apply NoDup_filter, glob_fs_NoDup.
  - intros p. rewrite list_elem_of_filter, !elem_of_glob_fs, clear_existing_lookup.
    unfold is_file. destruct (glob_match output_dir calib_pattern p); simpl.
    + destruct (fs st !! p) as [[c|]|]; split; try done;
        intros H; destruct_and?; try done; by destruct H as [[? ?] _].
    + split; intros H; by destruct_and?.
Qed.

(** X11. The counter and the directory.  When the output directory can be
    created, the count that [process_images] returns is at most the number
    of paths it was given, and afterwards the number of entries of the
    output directory named [calib_*.jpg] equals that count plus the number
    of directories that had such a name before: regular files of earlier
    runs never survive, such directories always do. *)
Theorem process_images_count (image_paths : list Path) (output_dir : Path)
    (tw th q : Z) (st st' : state) (successful : nat) :
  Forall (λ d, is_file (fs st) d = false) (ancestors_and_self output_dir) →
  process_images image_paths output_dir tw th q st = (Ok successful, st') →
  (successful ≤ length image_paths)%nat
  ∧ length (glob_fs (fs st') output_dir calib_pattern)
    = (successful
       + length (filter (λ p, fs st !! p = Some Dir)
                   (glob_fs (fs st) output_dir calib_pattern)))%nat.
Proof.
  intros Hmk. rewrite process_images_eq. unfold mkdir_parents at 1.
  rewrite bool_decide_eq_true_2 by done.
  set (st1 := set_fs _ st).
  assert (mkdir_parents output_dir st = (Ok true, st1)) as Hst1.
  { unfold mkdir_parents. by rewrite bool_decide_eq_true_2. }
  apply mkdir_parents_true in Hst1 as (_ & _ & _ & _ & Hframe & _).
  destruct (process_loop _ _ _ _ _ _ _ _) as [[n|e] st2] eqn:Hloop; [|done].
  intros [= <- <-]. cbn [fs emit].
  apply process_loop_count in Hloop as [Hn Hglob].
  - split; [lia|]. rewrite Hglob. cbn [fs emit].
    rewrite clear_existing_glob.
    assert (glob_fs (fs st1) output_dir calib_pattern
            ≡ₚ glob_fs (fs st) output_dir calib_pattern) as Hsame.
    { apply NoDup_Permutation; [apply glob_fs_NoDup..|]. intros p.
      rewrite !elem_of_glob_fs. split; intros [Hsome Hp]; (split; [|done]);
        apply glob_match_spec in Hp as (m & -> & _);
        by rewrite Hframe in * by apply child_not_ancestor. }
    assert (filter (λ p, fs st1 !! p = Some Dir) (glob_fs (fs st1) output_dir calib_pattern)
            ≡ₚ filter (λ p, fs st !! p = Some Dir)
                 (glob_fs (fs st) output_dir calib_pattern)) as ->.
    { rewrite Hsame. apply NoDup_Permutation;
        [apply NoDup_filter, glob_fs_NoDup..|].
      intros p. rewrite !list_elem_of_filter, !elem_of_glob_fs.
      split; intros (Hd & Hsome & Hp); (split_and!; [|done..]);
        apply glob_match_spec in Hp as (m & -> & _);
        by rewrite Hframe in * by apply child_not_ancestor. }
    lia.
  - intros j _. cbn [fs emit]. unfold is_file.
    rewrite clear_existing_lookup, (calib_path_matches output_dir j). simpl.
    unfold is_file.
    match goal with
    | |- context [?m !! ?k] => destruct (m !! k) as [[c|]|]
    end; reflexivity.
Qed.

End WriterCount.

Lemma process_images_count_witness :
  let st := initial_state tree_stale_output in
  let r := process_images [["/"; "out"; "calib_000007.jpg"]; ["/"; "out"; "readme.txt"]]
             ["/"; "out"] 2 1 95 st in
  (0 ≤ 2)%nat
  ∧ length (glob_fs (fs r.2) ["/"; "out"] calib_pattern)
    = (0 + length (filter (λ p, fs st !! p = Some Dir)
                     (glob_fs (fs st) ["/"; "out"] calib_pattern)))%nat.
Proof.
  apply (process_images_count
           [["/"; "out"; "calib_000007.jpg"]; ["/"; "out"; "readme.txt"]]
           ["/"; "out"] 2 1 95 (initial_state tree_stale_output)).
  - vm_compute. repeat constructor.
  - vm_compute. reflexivity.
Defined.

(** ** Failures that the writer absorbs, and the size of what it writes *)

Section WriterItems.
Context {RNG : Random} {CV : Cv2}.

Lemma resize_if_needed_cases (img : ndarray) tw th (st : state) :
  resize_if_needed img tw th st
  = if decide (shape img = (th, tw)) then (Ok img, st)
    else match cv_resize img tw th with
         | Some resized => (Ok resized, st)
         | None => (Raise Cv2Error, st)
         end.
Proof.
  unfold resize_if_needed. destruct (shape img) as [h w] eqn:Hshape.
  destruct (decide ((h, w) = (th, tw))) as [[= -> ->]|Hne].
  - by rewrite !bool_decide_eq_true_2.
  - assert (bool_decide (w = tw) && bool_decide (h = th) = false) as ->.
    { apply andb_false_iff. rewrite !bool_decide_eq_false.
      destruct (decide (w = tw)) as [->|]; [|by left].
      right. intros ->. done. }
    by destruct (cv_resize img tw th).
Qed.

Lemma process_item_ok output_dir tw th q idx img_path (st : state) :
  (∀ img, shape img ≠ (th, tw) → is_Some (cv_resize img tw th)) →
  ∃ o, (process_item output_dir tw th q idx img_path st).1 = Ok o.
Proof.
  intros Hresize. unfold process_item, bind. rewrite load_image_eq.
  destruct (fs st !! img_path) as [[b|]|]; [|by eexists..].
  destruct (imdecode b) as [img|]; [|by eexists].
  rewrite resize_if_needed_cases.
  assert (∀ r s, ∃ o,
    (match save_image r (output_dir ++ [calib_name idx]) q s with
     | (Ok saved, s') =>
         (if saved
          then bind (logger DEBUG (MsgSaved (output_dir ++ [calib_name idx])))
                 (λ _, ret Saved)
          else bind (logger WARNING (MsgSaveFailed (output_dir ++ [calib_name idx])))
                 (λ _, ret SaveFailure)) s'
     | (Raise e, s') => (Raise e, s')
     end).1 = Ok o) as Hsave.
  { intros r s. rewrite save_image_eq.
    destruct (imencode r q); [destruct (_ && _)|]; by eexists. }
  destruct (decide (shape img = (th, tw))) as [Hshape|Hshape]; [apply Hsave|].
  destruct (Hresize img Hshape) as [resized ->]. apply Hsave.
Qed.

Lemma process_loop_ok output_dir tw th q image_paths :
  (∀ img, shape img ≠ (th, tw) → is_Some (cv_resize img tw th)) →
  ∀ idx n (st : state),
  ∃ n', (process_loop output_dir tw th q idx image_paths n st).1 = Ok n'.
Proof.
  intros Hresize. induction image_paths as [|img_path image_paths IH];
    intros idx n st; [by eexists|].
  rewrite process_loop_step.
  destruct (process_item_ok output_dir tw th q idx img_path st Hresize) as [o Ho].
  destruct (process_item output_dir tw th q idx img_path st) as [r st1].
  simpl in Ho. subst r. apply IH.
Qed.

(** X12. Neither an image that cannot be read or decoded nor one that
    cannot be encoded or written ends the run of [process_images]: if
    [cv2.resize] succeeds for the target size on every image of another
    size, [process_images] returns a count for every list of paths and
    every file system. *)
Theorem process_images_absorbs_failures (image_paths : list Path)
    (output_dir : Path) (tw th q : Z) (st : state) :
  (∀ img, shape img ≠ (th, tw) → is_Some (cv_resize img tw th)) →
  ∃ successful,
    (process_images image_paths output_dir tw th q st).1 = Ok successful.
Proof.
  intros Hresize. rewrite process_images_eq.
  destruct (mkdir_parents_result output_dir st) as [[st1 ->]| ->]; [|by eexists].
  destruct (process_loop_ok output_dir tw th q image_paths Hresize 0%nat 0%nat
              (emit (Log INFO (MsgProcessing (length image_paths)))
                 (clear_existing output_dir st1).2)) as [n Hn].
  destruct (process_loop _ _ _ _ _ _ _ _) as [r st2]. simpl in Hn. subst r.
  by eexists.
Qed.

(** One item either leaves the file system as it is or writes, under its
    output name, the encoding of an image of the target size. *)
Lemma process_item_content output_dir tw th q idx img_path (st : state) :
  (∀ img w h resized, cv_resize img w h = Some resized → shape resized = (h, w)) →
  let r := process_item output_dir tw th q idx img_path st in
  fs r.2 = fs st
  ∨ ∃ img b, shape img = (th, tw) ∧ imencode img q = Some b
             ∧ fs r.2 = <[output_dir ++ [calib_name idx] := File b]> (fs st).
Proof.
  intros Hlaw. simpl. unfold process_item, bind. rewrite load_image_eq.
  destruct (fs st !! img_path) as [[b|]|]; [|by left..].
  destruct (imdecode b) as [img|]; [|by left].
  rewrite resize_if_needed_cases.
  assert (∀ r, shape r = (th, tw) →
    let res :=
      match save_image r (output_dir ++ [calib_name idx]) q st with
      | (Ok saved, s') =>
          (if saved
           then bind (logger DEBUG (MsgSaved (output_dir ++ [calib_name idx])))
                  (λ _, ret Saved)
           else bind (logger WARNING (MsgSaveFailed (output_dir ++ [calib_name idx])))
                  (λ _, ret SaveFailure)) s'
      | (Raise e, s') => (Raise e, s')
      end in
    fs res.2 = fs st
    ∨ ∃ img b, shape img = (th, tw) ∧ imencode img q = Some b
               ∧ fs res.2 = <[output_dir ++ [calib_name idx] := File b]> (fs st))
    as Hsave.
  { intros r Hr. simpl. rewrite save_image_eq.
    destruct (imencode r q) as [b'|] eqn:Henc; [|by left].
    destruct (_ && _); [|by left]. right. by exists r, b'. }
  destruct (decide (shape img = (th, tw))) as [Hshape|Hshape]; [by apply Hsave|].
  destruct (cv_resize img tw th) as [resized|] eqn:Hresized; [|by left].
  apply Hsave. by eapply Hlaw.
Qed.

Lemma process_loop_content output_dir tw th q image_paths :
  (∀ img w h resized, cv_resize img w h = Some resized → shape resized = (h, w)) →
  ∀ idx n (st : state),
  (∀ p c, glob_match output_dir calib_pattern p = true →
          fs st !! p = Some (File c) →
          ∃ img, shape img = (th, tw) ∧ imencode img q = Some c) →
  ∀ p c, glob_match output_dir calib_pattern p = true →
         fs (process_loop output_dir tw th q idx image_paths n st).2 !! p
         = Some (File c) →
         ∃ img, shape img = (th, tw) ∧ imencode img q = Some c.
Proof.
  intros Hlaw. induction image_paths as [|img_path image_paths IH];
    intros idx n st Hinv p c Hp Hc; [by eapply Hinv|].
  rewrite process_loop_step in Hc.
  pose proof (process_item_content output_dir tw th q idx img_path st Hlaw) as Hitem.
  destruct (process_item output_dir tw th q idx img_path st) as [[o|e] st1];
    cbn [fst snd] in Hitem.
  - eapply IH; [|done..]. intros p' c' Hp' Hc'.
    destruct Hitem as [Hfs|(img & b & Hshape & Henc & Hfs)]; rewrite Hfs in Hc'.
    + by eapply Hinv.
    + destruct (decide (p' = output_dir ++ [calib_name idx])) as [->|Hne].
      * rewrite lookup_insert_eq in Hc'. injection Hc' as <-. eauto.
      * rewrite lookup_insert_ne in Hc' by done. by eapply Hinv.
  - cbn [snd] in Hc.
    destruct Hitem as [Hfs|(img & b & Hshape & Henc & Hfs)]; rewrite Hfs in Hc.
    + by eapply Hinv.
    + destruct (decide (p = output_dir ++ [calib_name idx])) as [->|Hne].
      * rewrite lookup_insert_eq in Hc. injection Hc as <-. eauto.
      * rewrite lookup_insert_ne in Hc by done. by eapply Hinv.
Qed.

(** X13. What the output directory offers after a run.  If [cv2.resize]
    returns images of the size it is asked for and the output directory
    can be created, then after [process_images] (also when an exception
    ended it) every regular file of the output directory named
    [calib_*.jpg] is the encoding, at the configured quality, of an image
    whose size is exactly the target size: no file of an earlier run and
    no image of another size is left under such a name. *)
Theorem outputs_have_target_size (image_paths : list Path) (output_dir : Path)
    (tw th q : Z) (st : state) (p : Path) (c : string) :
  (∀ img w h resized, cv_resize img w h = Some resized → shape resized = (h, w)) →
  Forall (λ d, is_file (fs st) d = false) (ancestors_and_self output_dir) →
  glob_match output_dir calib_pattern p = true →
  fs (process_images image_paths output_dir tw th q st).2 !! p = Some (File c) →
  ∃ img, shape img = (th, tw) ∧ imencode img q = Some c.
Proof.
  intros Hlaw Hmk Hp. rewrite process_images_eq. unfold mkdir_parents at 1.
  rewrite bool_decide_eq_true_2 by done.
  set (st1 := set_fs _ st).
  set (st2 := emit _ (clear_existing output_dir st1).2).
  intros Hc.
  assert (∀ p' c', glob_match output_dir calib_pattern p' = true →
                   fs st2 !! p' = Some (File c') →
                   ∃ img, shape img = (th, tw) ∧ imencode img q = Some c') as Hinv.
  { intros p' c' Hp' Hc'. unfold st2 in Hc'. cbn [fs emit] in Hc'.
    rewrite clear_existing_lookup, Hp' in Hc'. cbn [andb] in Hc'.
    unfold is_file in Hc'. by destruct (fs st1 !! p') as [[c''|]|]. }
  apply (process_loop_content output_dir tw th q image_paths Hlaw 0%nat 0%nat st2
           Hinv p c Hp).
  by destruct (process_loop _ _ _ _ _ _ _ _) as [[n|e] st3].
Qed.

End WriterItems.

Lemma raster_resize_shape (img : raster) (w h : Z) (resized : raster) :
  raster_resize img w h = Some resized → shape resized = (h, w).
Proof.
  unfold raster_resize. destruct (_ && _); [|done]. by intros [= <-].
Qed.

Lemma process_images_absorbs_failures_witness :
  ∃ successful,
    (process_images [["/"; "data"; "a.jpg"]; ["/"; "data"; "b.jpg"]]
       ["/"; "out"] 2 1 95 (initial_state tree_one_corrupt)).1 = Ok successful.
Proof.
  apply (process_images_absorbs_failures
           [["/"; "data"; "a.jpg"]; ["/"; "data"; "b.jpg"]]
           ["/"; "out"] 2 1 95 (initial_state tree_one_corrupt)).
  intros img _. vm_compute. eauto.
Defined.

Lemma outputs_have_target_size_witness :
  ∃ img : raster, shape img = (1, 2) ∧ imencode img 95 = Some (raster_bytes 1 2 "bd").
Proof.
  apply (outputs_have_target_size (CV := raster_cv2)
           [["/"; "data"; "a.jpg"]; ["/"; "data"; "c.png"]]
           ["/"; "out"] 2 1 95 (initial_state tree_one_corrupt)
           ["/"; "out"; "calib_000001.jpg"] (raster_bytes 1 2 "bd")).
  - intros img w h resized. apply raster_resize_shape.
  - vm_compute. repeat constructor.
  - vm_compute. reflexivity.
  - vm_compute. reflexivity.
Defined.

(** ** Exit status *)

Section ExitStatus.
Context {RNG : Random} {CV : Cv2}.

Lemma main_body_inv (args : arguments) (st st' : state) (code : Z) :
  main_body args st = (Ok code, st') →
  code = 1
  ∨ (code = 0
     ∧ ∃ (st3 st4 : state) (successful : nat),
         successful ≠ 0%nat
         ∧ generate_image_list (output_dir args) st3 = (Ok true, st4)
         ∧ st' = emit (Log INFO MsgCompleted) st4).
Proof.
  unfold main_body, bind.
  destruct (collect_image_paths _ _ st) as [[corpus|e] st1]; [|done].
  destruct (sample_images corpus _ _ st1) as [[selected|e] st2]; [|done].
  destruct (process_images selected _ _ _ _ st2) as [[successful|e] st3]; [|done].
  case_bool_decide as Hzero.
  - unfold logger, ret. intros [= <- _]. by left.
  - destruct (generate_image_list _ st3) as [[[|]|e] st4] eqn:Hgen; [| |done].
    + unfold logger, ret. cbn [negb]. intros [= <- <-]. right.
      split; [done|]. by exists st3, st4, successful.
    + unfold logger, ret. cbn [negb]. intros [= <- _]. by left.
Qed.

(** The trace only grows. *)
Lemma process_item_extends output_dir tw th q idx img_path (st : state) :
  extends st (process_item output_dir tw th q idx img_path st).2.
Proof.
  unfold process_item, bind. rewrite load_image_eq.
  assert (∀ r s,
    extends s
      (match save_image r (output_dir ++ [calib_name idx]) q s with
       | (Ok saved, s') =>
           (if saved
            then bind (logger DEBUG (MsgSaved (output_dir ++ [calib_name idx])))
                   (λ _, ret Saved)
            else bind (logger WARNING (MsgSaveFailed (output_dir ++ [calib_name idx])))
                   (λ _, ret SaveFailure)) s'
       | (Raise e, s') => (Raise e, s')
       end).2) as Hsave.
  { intros r s. rewrite save_image_eq.
    destruct (imencode r q); [destruct (_ && _)|]; unfold bind, logger, ret;
      cbn [fst snd].
    - apply extends_emit_r, extends_set_fs. reflexivity.
    - apply extends_emit_r, extends_emit.
    - apply extends_emit_r, extends_emit. }
  destruct (fs st !! img_path) as [[b|]|]; [|apply extends_emit..].
  destruct (imdecode b) as [img|]; [|apply extends_emit].
  rewrite resize_if_needed_cases.
  destruct (decide (shape img = (th, tw))); [apply Hsave|].
  destruct (cv_resize img tw th); [apply Hsave|reflexivity].
Qed.

Lemma process_loop_extends output_dir tw th q image_paths :
  ∀ idx n (st : state),
  extends st (process_loop output_dir tw th q idx image_paths n st).2.
Proof.
  induction image_paths as [|img_path image_paths IH]; intros idx n st; [reflexivity|].
  rewrite process_loop_step.
  pose proof (process_item_extends output_dir tw th q idx img_path st) as Hitem.
  destruct (process_item output_dir tw th q idx img_path st) as [[o|e] st1];
    cbn [snd] in Hitem; [|done].
  etrans; [done|apply IH].
Qed.

Lemma process_images_extends image_paths output_dir tw th q (st : state) :
  extends st (process_images image_paths output_dir tw th q st).2.
Proof.
  rewrite process_images_eq.
  destruct (mkdir_parents_result output_dir st) as [[st1 Hmk]|Hmk]; rewrite Hmk;
    [|apply extends_emit].
  apply mkdir_parents_true in Hmk as (_ & _ & Htrace & _).
  assert (extends st st1) as Hst1 by (exists []; by rewrite app_nil_r).
  pose proof (process_loop_extends output_dir tw th q image_paths 0 0
                (emit (Log INFO (MsgProcessing (length image_paths)))
                   (clear_existing output_dir st1).2)) as Hloop.
  assert (extends st (process_loop output_dir tw th q 0 image_paths 0
                        (emit (Log INFO (MsgProcessing (length image_paths)))
                           (clear_existing output_dir st1).2)).2) as Hall.
  { etrans; [exact Hst1|]. etrans; [apply clear_existing_extends|].
    etrans; [apply extends_emit|exact Hloop]. }
  destruct (process_loop _ _ _ _ _ _ _ _) as [[n|e] st2]; cbn [snd] in *;
    [by apply extends_emit_r|done].
Qed.

Lemma generate_image_list_extends output_dir (st : state) :
  extends st (generate_image_list output_dir st).2.
Proof.
  destruct (generate_image_list_cases output_dir st) as (names & _ & _ & _ & ->).
  destruct names as [|n names]; [apply extends_emit|].
  destruct (_ && _); cbn [snd]; [|apply extends_emit].
  apply extends_emit_r, extends_set_fs. reflexivity.
Qed.

Lemma main_extends (args : arguments) (st : state) :
  extends st (main args st).2.
Proof.
  assert (extends st (main_body args st).2) as Hbody.
  { unfold main_body, bind.
    pose proof (collect_image_paths_cases (source_dir args) default_extensions st)
      as Hcollect.
    assert (extends st (collect_image_paths (source_dir args) default_extensions st).2)
      as Hc.
    { rewrite Hcollect. destruct (stat _ _) as [[c|]|]; [reflexivity| |reflexivity].
      cbv zeta. destruct (decide _); cbn [snd].
      - by eexists.
      - apply extends_emit_r. by eexists. }
    clear Hcollect.
    destruct (collect_image_paths _ _ st) as [[all_images|e] st1]; cbn [snd] in Hc;
      [|done].
    pose proof (sample_images_extends all_images (num_images args) (seed args) st1)
      as Hs.
    destruct (sample_images _ _ _ st1) as [[selected|e] st2]; cbn [snd] in Hs;
      [|by etrans].
    pose proof (process_images_extends selected (output_dir args)
                  (width args) (height args) (quality args) st2) as Hp.
    destruct (process_images _ _ _ _ _ st2) as [[n|e] st3]; cbn [snd] in Hp;
      [|by repeat (etrans; [done|])].
    assert (extends st st3) as Hst3 by (by repeat (etrans; [done|])).
    case_bool_decide; [by apply extends_emit_r|].
    pose proof (generate_image_list_extends (output_dir args) st3) as Hg.
    destruct (generate_image_list _ st3) as [[[|]|e] st4]; cbn [snd negb] in *.
    - apply extends_emit_r. by etrans.
    - apply extends_emit_r. by etrans.
    - by etrans. }
  unfold main, try_except.
  destruct (main_body args st) as [[code|e] st1]; cbn [snd] in *; [done|].
  destruct e; by apply extends_emit_r.
Qed.

Lemma main_status (args : arguments) (st : state) :
  (main args st).1 = Ok 0 ∨ (main args st).1 = Ok 1.
Proof.
  unfold main, try_except.
  destruct (main_body args st) as [[code|e] st1] eqn:Hbody.
  - apply main_body_inv in Hbody as [->|[-> _]]; auto.
  - right. by destruct e.
Qed.

(** X14. How the script ends.  When argparse rejects the command line (or
    prints its help), its [SystemExit] leaves [main] before the [try]
    statement is entered: the process ends with the status of argparse and
    nothing has been done, not even the configuration of the log.  Once
    the arguments are parsed, the log level is configured first ([DEBUG]
    with [--verbose], [INFO] without), no exception leaves the [try]
    statement, and the process ends with status 0 or 1, whatever the
    arguments and the file system. *)
Theorem main_exit_status (parsed : arguments + Z) (st : state) :
  match parsed with
  | inr status => script parsed st = (ArgparseExit status, st)
  | inl args =>
      ((script parsed st).1 = Exit 0 ∨ (script parsed st).1 = Exit 1)
      ∧ ∃ rest, trace (script parsed st).2
                = trace st ++ Configure (if verbose args then DEBUG else INFO) :: rest
  end.
Proof.
  destruct parsed as [args|status]; [|done].
  unfold script, bind, setup_logging.
  set (st0 := emit (Configure (if verbose args then DEBUG else INFO)) st).
  pose proof (main_status args st0) as Hstatus.
  assert (extends st0 (main args st0).2) as [es Hes] by apply main_extends.
  destruct (main args st0) as [[status|e] st1]; cbn [fst snd] in *.
  - split; [destruct Hstatus as [[= ->]|[= ->]]; auto|].
    exists es. rewrite Hes. unfold st0. cbn [trace emit]. by rewrite <- app_assoc.
  - by destruct Hstatus.
Qed.


End ExitStatus.


(** ** Regenerating the manifest *)

Section ManifestAgain.
Context {RNG : Random} {CV : Cv2}.

Lemma sorted_names_unique (l1 l2 : list string) :
  StronglySorted String.le l1 → NoDup l1 →
  StronglySorted String.le l2 → NoDup l2 →
  (∀ n, n ∈ l1 ↔ n ∈ l2) → l1 = l2.
Proof.
  intros Hs1 Hn1 Hs2 Hn2 Hiff.
  apply (StronglySorted_unique String.le); [done..|].
  by apply NoDup_Permutation.
Qed.

(** X16. [generate_image_list] is idempotent: run again on the state it
    left, it returns the same result and leaves the same file system (the
    list file it wrote is not listed in itself). *)
Theorem generate_image_list_idempotent (output_dir : Path) (st : state) :
  let first := generate_image_list output_dir st in
  let second := generate_image_list output_dir first.2 in
  second.1 = first.1 ∧ fs second.2 = fs first.2.
Proof.
  simpl.
  destruct (generate_image_list_cases output_dir st)
    as (names & Hs & Hn & Hnames & ->).
  set (list_file := output_dir ++ [list_file_name]).
  assert (∀ (st1 : state),
            cwd st1 = cwd st →
            (∀ n, fnmatch calib_pattern n = true →
                  fs st1 !! (output_dir ++ [n]) = fs st !! (output_dir ++ [n])) →
            ∃ names1,
              names1 = names
              ∧ generate_image_list output_dir st1
                = match names1 with
                  | [] => (Ok false, emit (Log ERROR MsgNoCalibrationImages) st1)
                  | _ =>
                      if bool_decide (stat (fs st1) output_dir = Some Dir)
                         && negb (bool_decide (fs st1 !! list_file = Some Dir))
                      then (Ok true,
                            emit (Log INFO (MsgListGenerated (length names1) list_file))
                              (set_fs
                                 (<[list_file :=
                                      File (foldr (λ n text,
                                              path_str (absolute (cwd st1)
                                                          (output_dir ++ [n]))
                                              +:+ newline +:+ text) "" names1)]>
                                    (fs st1)) st1))
                      else (Ok false, emit (Log ERROR MsgListWriteFailed) st1)
                  end) as Hagain.
  { intros st1 Hcwd Hsame.
    destruct (generate_image_list_cases output_dir st1)
      as (names1 & Hs1 & Hn1 & Hnames1 & Heq1).
    exists names1. split; [|done].
    apply sorted_names_unique; [done..|]. intros n.
    rewrite Hnames, Hnames1. split; intros [Hm Hsome]; (split; [done|]).
    - by rewrite <- Hsame.
    - by rewrite Hsame. }
  destruct names as [|n0 names'].
  - cbn [fst snd].
    destruct (Hagain (emit (Log ERROR MsgNoCalibrationImages) st))
      as (names1 & -> & ->); done.
  - destruct (bool_decide (stat (fs st) output_dir = Some Dir)) eqn:Hdir;
      [destruct (bool_decide (fs st !! list_file = Some Dir)) eqn:Hlist|];
      cbn [andb negb fst snd].
    + destruct (Hagain (emit (Log ERROR MsgListWriteFailed) st))
        as (names1 & -> & ->); [done..|].
      cbn [fs emit]. by rewrite Hdir, Hlist.
    + set (text := foldr _ _ _).
      destruct (Hagain (emit (Log INFO (MsgListGenerated (length (n0 :: names')) list_file))
                          (set_fs (<[list_file := File text]> (fs st)) st)))
        as (names1 & -> & ->); [done| |].
      { intros n Hm. cbn [fs emit set_fs]. rewrite lookup_insert_ne; [done|].
        intros Heq. apply (inj (λ x, output_dir ++ [x])) in Heq. subst n.
        by rewrite list_file_not_matching in Hm. }
      cbn [fs cwd emit set_fs]. fold text.
      assert (stat (<[list_file := File text]> (fs st)) output_dir = Some Dir) as Hdir'.
      { apply bool_decide_eq_true_1 in Hdir. destruct output_dir as [|d out]; [done|].
        unfold stat in *. rewrite lookup_insert_ne; [done|].
        unfold list_file. intros Heq. apply (f_equal length) in Heq.
        rewrite length_app in Heq. simpl in Heq. lia. }
      rewrite (bool_decide_eq_true_2 _ Hdir').
      rewrite lookup_insert_eq. rewrite bool_decide_eq_false_2 by done.
      cbn [andb negb fst snd fs emit set_fs]. split; [done|].
      by rewrite insert_insert_eq.
    + destruct (Hagain (emit (Log ERROR MsgListWriteFailed) st))
        as (names1 & -> & ->); [done..|].
      cbn [fs emit]. by rewrite Hdir.
Qed.

End ManifestAgain.

(** ** Output names and their order *)

Section OutputNames.

Import Unsigned.

Lemma of_uint_positional d :
  d ≠ Decimal.Nil →
  Nat.of_uint d = (hd d * 10 ^ usize (tl d) + Nat.of_uint (tl d))%nat.
Proof.
  intros Hd. rewrite !of_uint_alt.
  destruct d; [done|..]; unfold Decimal.rev at 1; simpl Decimal.revapp;
    rewrite of_lu_revapp; simpl;
    generalize (10 ^ usize d)%nat (of_lu (Decimal.rev d)); intros; lia.
Qed.

Lemma of_uint_bound d : (Nat.of_uint d < 10 ^ usize d)%nat.
Proof.
  induction d; [exact Nat.lt_0_1|..];
    rewrite of_uint_positional by done; simpl hd; simpl tl; simpl usize;
    rewrite Nat.pow_succ_r';
    revert IHd; generalize (10 ^ usize d)%nat (Nat.of_uint d); intros; lia.
Qed.

Lemma string_of_uint_length d :
  String.length (NilEmpty.string_of_uint d) = usize d.
Proof. induction d; simpl; congruence. Qed.

Lemma string_of_uint_digits d : all_digits (NilEmpty.string_of_uint d) = true.
Proof. induction d; simpl; [done|..]; exact IHd. Qed.

Lemma string_of_uint_zeros k d :
  zeros k +:+ NilEmpty.string_of_uint d
  = NilEmpty.string_of_uint (Nat.iter k Decimal.D0 d).
Proof. induction k as [|k IH]; simpl; [done|]. by rewrite IH. Qed.

Lemma usize_leading_zeros k d : usize (Nat.iter k Decimal.D0 d) = (k + usize d)%nat.
Proof. induction k as [|k IH]; simpl; [done|]. by rewrite IH. Qed.

(** The decimal form of a number below [10^6] has at most six digits. *)
Lemma to_uint_size (n : nat) : (n < 10 ^ 6)%nat → (usize (Nat.to_uint n) ≤ 6)%nat.
Proof.
  intros Hn. pose proof (of_to n) as Hval. pose proof (to_of (Nat.to_uint n)) as Hnorm.
  rewrite Hval in Hnorm.
  destruct (Nat.to_uint n) as [|d|d|d|d|d|d|d|d|d|d] eqn:Hd; [simpl; lia| |..].
  { rewrite DecimalFacts.unorm_D0 in Hnorm.
    unfold Decimal.unorm in Hnorm.
    destruct (Decimal.nzhead d) eqn:Hhead; try done.
    - injection Hnorm as Hnil. subst d. simpl. lia.
    - by destruct (DecimalFacts.nzhead_nonzero d u). }
  all: rewrite of_uint_positional in Hval by done; simpl hd in Hval; simpl tl in Hval;
    simpl usize;
    assert (10 ^ usize d < 10 ^ 6)%nat as Hpow by lia;
    apply Nat.pow_lt_mono_r_iff in Hpow; lia.
Qed.

(** The six characters of [format_06d], as a decimal number with leading
    zeros. *)
Lemma format_06d_uint (n : nat) :
  (n < 10 ^ 6)%nat →
  ∃ d, format_06d n = NilEmpty.string_of_uint d
       ∧ usize d = 6%nat ∧ Nat.of_uint d = n.
Proof.
  intros Hn. pose proof (to_uint_size n Hn) as Hsize.
  assert (Nat.to_uint n ≠ Decimal.Nil) as Hnil.
  { intros Hd. pose proof (to_of (Nat.to_uint n)) as Hnorm.
    rewrite of_to, Hd in Hnorm. by destruct (Nat.to_uint n). }
  exists (Nat.iter (6 - usize (Nat.to_uint n)) Decimal.D0 (Nat.to_uint n)).
  split_and!.
  - unfold format_06d. cbv zeta.
    assert (NilZero.string_of_uint (Nat.to_uint n)
            = NilEmpty.string_of_uint (Nat.to_uint n)) as ->
      by by destruct (Nat.to_uint n).
    by rewrite string_of_uint_length, string_of_uint_zeros.
  - rewrite usize_leading_zeros. lia.
  - rewrite of_uint_leading_zeros. apply of_to.
Qed.

(** Decimal numbers with the same number of digits compare as strings the
    way their values compare. *)
Lemma string_of_uint_lt d1 :
  ∀ d2, usize d1 = usize d2 → (Nat.of_uint d1 < Nat.of_uint d2)%nat →
        String.compare (NilEmpty.string_of_uint d1) (NilEmpty.string_of_uint d2) = Lt.
Proof.
  induction d1 as [|d1 IH|d1 IH|d1 IH|d1 IH|d1 IH|d1 IH|d1 IH|d1 IH|d1 IH|d1 IH];
    intros d2 Hsize Hlt; destruct d2 as [|d2|d2|d2|d2|d2|d2|d2|d2|d2|d2];
    try discriminate Hsize; try (simpl in Hlt; lia);
    injection Hsize as Hsize;
    pose proof (of_uint_bound d1) as Hb1; pose proof (of_uint_bound d2) as Hb2;
    rewrite Hsize in Hb1;
    match type of Hlt with
    | (Nat.of_uint ?a < Nat.of_uint ?b)%nat =>
        rewrite (of_uint_positional a), (of_uint_positional b) in Hlt by done
    end;
    simpl hd in Hlt; simpl tl in Hlt; rewrite Hsize in Hlt;
    simpl;
    revert Hlt Hb1 Hb2; generalize (10 ^ usize d2)%nat; intros T Hlt Hb1 Hb2;
    first [ reflexivity | apply IH; [done|lia] | exfalso; lia ].
Qed.

Lemma string_compare_app_l (p a b : string) :
  String.compare (p +:+ a) (p +:+ b) = String.compare a b.
Proof.
  induction p as [|c p IH]; simpl; [done|].
  unfold Ascii.compare. by rewrite N.compare_refl.
Qed.

Lemma string_compare_app_lt (a b s s' : string) :
  String.length a = String.length b →
  String.compare a b = Lt → String.compare (a +:+ s) (b +:+ s') = Lt.
Proof.
  revert b. induction a as [|c a IH]; intros [|c' b] Hlen Hlt; try done.
  simpl in *. destruct (Ascii.compare c c'); [|done..].
  apply IH; [congruence|done].
Qed.

(** X17. Below one million, the name of an output is [calib_], six decimal
    digits and [.jpg]. *)
Theorem output_name_six_digits (idx : nat) :
  (idx < 10 ^ 6)%nat →
  ∃ digits, String.length digits = 6%nat ∧ all_digits digits = true
            ∧ parse_ordinal digits = Some idx
            ∧ calib_name idx = "calib_" +:+ digits +:+ ".jpg".
Proof.
  intros Hidx. exists (format_06d idx).
  destruct (format_06d_uint idx Hidx) as (d & Hd & Hsize & _).
  split_and!.
  - by rewrite Hd, string_of_uint_length.
  - rewrite Hd. apply string_of_uint_digits.
  - apply parse_format_06d.
  - done.
Qed.

(** X18. Below one million, the names of the outputs are in the order of
    their ordinals: an earlier position of the SampleSet has the smaller
    name, so the manifest, which is sorted by path, lists the outputs in
    processing order. *)
Theorem output_names_ascending (output_dir : Path) (i j : nat) :
  (i < j < 10 ^ 6)%nat →
  (calib_name i ≤ calib_name j)%string
  ∧ calib_name i ≠ calib_name j
  ∧ path_le (output_dir ++ [calib_name i]) (output_dir ++ [calib_name j])
  ∧ ¬ path_le (output_dir ++ [calib_name j]) (output_dir ++ [calib_name i]).
Proof.
  intros [Hij Hj].
  destruct (format_06d_uint i ltac:(lia)) as (di & Hdi & Hsi & Hvi).
  destruct (format_06d_uint j Hj) as (dj & Hdj & Hsj & Hvj).
  assert (String.compare (calib_name i) (calib_name j) = Lt) as Hlt.
  { unfold calib_name. rewrite string_compare_app_l.
    apply string_compare_app_lt.
    - rewrite Hdi, Hdj, !string_of_uint_length. congruence.
    - rewrite Hdi, Hdj. apply string_of_uint_lt; [congruence|lia]. }
  assert ((calib_name i ≤ calib_name j)%string) as Hle.
  { unfold String.le, String.leb. by rewrite Hlt. }
  assert (calib_name i ≠ calib_name j) as Hne
    by (intros Heq%calib_name_inj; lia).
  split_and!; [done..| |].
  - by apply path_le_children.
  - intros Hji%path_le_children. destruct Hne. by apply (anti_symm String.le).
Qed.

End OutputNames.

Lemma output_name_six_digits_witness :
  ∃ digits, String.length digits = 6%nat ∧ all_digits digits = true
            ∧ parse_ordinal digits = Some 42%nat
            ∧ calib_name 42 = "calib_" +:+ digits +:+ ".jpg".
Proof.
  apply (output_name_six_digits 42).
  apply Nat.ltb_lt. vm_compute. reflexivity.
Defined.

Lemma output_names_ascending_witness :
  (calib_name 9 ≤ calib_name 10)%string
  ∧ calib_name 9 ≠ calib_name 10
  ∧ path_le (["/"; "out"] ++ [calib_name 9]) (["/"; "out"] ++ [calib_name 10])
  ∧ ¬ path_le (["/"; "out"] ++ [calib_name 10]) (["/"; "out"] ++ [calib_name 9]).
Proof.
  apply (output_names_ascending ["/"; "out"] 9 10).
  split; [lia|]. apply Nat.ltb_lt. vm_compute. reflexivity.
Defined.

(** * Two runs of the pipeline *)

Section TwoRuns.
Context {RNG : Random} {CV : Cv2}.

(** ** Creating the directory and clearing it, on two alike file systems *)

Lemma mkdir_parents_lookup (dir : Path) (st st' : state) p :
  mkdir_parents dir st = (Ok true, st') →
  fs st' !! p = if bool_decide (p ∈ ancestors_and_self dir) then Some Dir
                else fs st !! p.
Proof.
  unfold mkdir_parents. case_bool_decide; [|done]. intros [= <-].
  cbn [fs set_fs]. apply foldr_insert_dir_lookup.
Qed.

Lemma mkdir_parents_alike (out : Path) (st1 st2 : state) :
  alike out (fs st1) (fs st2) →
  (mkdir_parents out st1 = (Ok false, st1) ∧ mkdir_parents out st2 = (Ok false, st2))
  ∨ ∃ st1' st2' : state,
      mkdir_parents out st1 = (Ok true, st1')
      ∧ mkdir_parents out st2 = (Ok true, st2')
      ∧ cwd st1' = cwd st1 ∧ cwd st2' = cwd st2.
Proof.
  intros Halike. unfold mkdir_parents.
  assert (Forall (λ d, is_file (fs st1) d = false) (ancestors_and_self out)
          ↔ Forall (λ d, is_file (fs st2) d = false) (ancestors_and_self out)) as Hiff.
  { rewrite !Forall_forall. split; intros Hall d Hd; specialize (Hall d Hd);
      destruct (Halike d) as [Heq|[(_ & ? & ?)|([Hm| ->] & _)]]; try done.
    - unfold is_file in *. by rewrite <- Heq.
    - apply glob_match_spec in Hm as (n & -> & _).
      by apply child_not_ancestor in Hd.
    - by apply child_not_ancestor in Hd.
    - unfold is_file in *. by rewrite Heq.
    - apply glob_match_spec in Hm as (n & -> & _).
      by apply child_not_ancestor in Hd.
    - by apply child_not_ancestor in Hd. }
  destruct (decide (Forall (λ d, is_file (fs st1) d = false) (ancestors_and_self out)))
    as [Hok|Hno].
  - right. rewrite !bool_decide_eq_true_2 by tauto. by eexists _, _.
  - left. rewrite !bool_decide_eq_false_2 by tauto. done.
Qed.

(** After the creation of the directory and the cleanup, two alike file
    systems agree everywhere but at the list file. *)
Lemma prepare_alike (out : Path) (st1 st2 st1' st2' : state) :
  alike out (fs st1) (fs st2) →
  mkdir_parents out st1 = (Ok true, st1') →
  mkdir_parents out st2 = (Ok true, st2') →
  agree_except (out ++ [list_file_name])
    (fs (clear_existing out st1').2) (fs (clear_existing out st2').2)
  ∧ fs (clear_existing out st1').2 !! (out ++ [list_file_name])
    = fs st1 !! (out ++ [list_file_name])
  ∧ fs (clear_existing out st2').2 !! (out ++ [list_file_name])
    = fs st2 !! (out ++ [list_file_name]).
Proof.
  intros Halike Hmk1 Hmk2. split_and!.
  - intros p Hp. rewrite !clear_existing_lookup.
    rewrite (mkdir_parents_lookup _ _ _ p Hmk1), (mkdir_parents_lookup _ _ _ p Hmk2).
    unfold is_file.
    rewrite (mkdir_parents_lookup _ _ _ p Hmk1), (mkdir_parents_lookup _ _ _ p Hmk2).
    case_bool_decide as Hanc; [by rewrite !andb_false_r|].
    destruct (Halike p) as [Heq|[(? & _)|([Hm| ->] & Hd1 & Hd2)]]; try done.
    + by rewrite Heq.
    + rewrite Hm. simpl.
      destruct (fs st1 !! p) as [[c1|]|], (fs st2 !! p) as [[c2|]|]; done.
  - rewrite clear_existing_lookup, glob_match_child, list_file_not_matching by done. simpl.
    rewrite (mkdir_parents_lookup _ _ _ _ Hmk1).
    by rewrite bool_decide_eq_false_2 by apply child_not_ancestor.
  - rewrite clear_existing_lookup, glob_match_child, list_file_not_matching by done. simpl.
    rewrite (mkdir_parents_lookup _ _ _ _ Hmk2).
    by rewrite bool_decide_eq_false_2 by apply child_not_ancestor.
Qed.

End TwoRuns.

Section TwoRunsLoop.
Context {RNG : Random} {CV : Cv2}.

Lemma stat_agree (out : Path) (n : string) (f1 f2 : FS) :
  agree_except (out ++ [n]) f1 f2 → stat f1 out = stat f2 out.
Proof.
  intros Hagree. destruct out as [|d out]; [done|]. unfold stat.
  apply Hagree. intros Heq. apply (f_equal length) in Heq.
  rewrite length_app in Heq. simpl in Heq. lia.
Qed.

Lemma agree_except_insert (x p : Path) (v : node) (f1 f2 : FS) :
  agree_except x f1 f2 → agree_except x (<[p := v]> f1) (<[p := v]> f2).
Proof.
  intros Hagree q Hq. destruct (decide (q = p)) as [->|Hne].
  - by rewrite !lookup_insert_eq.
  - rewrite !lookup_insert_ne by done. by apply Hagree.
Qed.

(** One item on two file systems that agree but at the list file. *)
Lemma process_item_sim out tw th q idx img_path (st1 st2 : state) :
  let list_file := out ++ [list_file_name] in
  agree_except list_file (fs st1) (fs st2) →
  img_path ≠ list_file →
  let r1 := process_item out tw th q idx img_path st1 in
  let r2 := process_item out tw th q idx img_path st2 in
  r1.1 = r2.1
  ∧ agree_except list_file (fs r1.2) (fs r2.2)
  ∧ fs r1.2 !! list_file = fs st1 !! list_file
  ∧ fs r2.2 !! list_file = fs st2 !! list_file.
Proof.
  intros list_file Hagree Hpath. simpl.
  assert (out ++ [calib_name idx] ≠ list_file) as Htarget.
  { intros Heq. apply (inj (λ n, out ++ [n])) in Heq.
    by apply (calib_name_not_list_file idx). }
  unfold process_item, bind. rewrite !load_image_eq.
  rewrite <- (Hagree img_path Hpath).
  destruct (fs st1 !! img_path) as [[b|]|]; [|done..].
  destruct (imdecode b) as [img|]; [|done].
  rewrite !resize_if_needed_cases.
  assert (∀ r : ndarray,
    let s1 := match save_image r (out ++ [calib_name idx]) q st1 with
              | (Ok saved, s') =>
                  (if saved
                   then bind (logger DEBUG (MsgSaved (out ++ [calib_name idx])))
                          (λ _, ret Saved)
                   else bind (logger WARNING (MsgSaveFailed (out ++ [calib_name idx])))
                          (λ _, ret SaveFailure)) s'
              | (Raise e, s') => (Raise e, s')
              end in
    let s2 := match save_image r (out ++ [calib_name idx]) q st2 with
              | (Ok saved, s') =>
                  (if saved
                   then bind (logger DEBUG (MsgSaved (out ++ [calib_name idx])))
                          (λ _, ret Saved)
                   else bind (logger WARNING (MsgSaveFailed (out ++ [calib_name idx])))
                          (λ _, ret SaveFailure)) s'
              | (Raise e, s') => (Raise e, s')
              end in
    s1.1 = s2.1
    ∧ agree_except list_file (fs s1.2) (fs s2.2)
    ∧ fs s1.2 !! list_file = fs st1 !! list_file
    ∧ fs s2.2 !! list_file = fs st2 !! list_file) as Hsave.
  { intros r. simpl. rewrite !save_image_eq, parent_child.
    rewrite <- (stat_agree out list_file_name _ _ Hagree).
    rewrite <- (Hagree _ Htarget).
    destruct (imencode r q) as [b'|]; [|done].
    destruct (_ && _); [|done]. unfold bind, logger, ret.
    cbn [fst snd fs emit set_fs].
    split_and!; [done|by apply agree_except_insert|..];
      by rewrite lookup_insert_ne. }
  destruct (decide (shape img = (th, tw))); [apply Hsave|].
  destruct (cv_resize img tw th) as [resized|]; [apply Hsave|done].
Qed.

Lemma process_loop_sim out tw th q image_paths :
  let list_file := out ++ [list_file_name] in
  Forall (λ p, p ≠ list_file) image_paths →
  ∀ idx n (st1 st2 : state),
  agree_except list_file (fs st1) (fs st2) →
  let r1 := process_loop out tw th q idx image_paths n st1 in
  let r2 := process_loop out tw th q idx image_paths n st2 in
  r1.1 = r2.1
  ∧ agree_except list_file (fs r1.2) (fs r2.2)
  ∧ fs r1.2 !! list_file = fs st1 !! list_file
  ∧ fs r2.2 !! list_file = fs st2 !! list_file.
Proof.
  intros list_file Hpaths.
  induction Hpaths as [|img_path image_paths Hpath _ IH]; intros idx n st1 st2 Hagree;
    [done|].
  cbv zeta. rewrite !process_loop_step.
  destruct (process_item_sim out tw th q idx img_path st1 st2 Hagree Hpath)
    as (Hres & Hagree' & Hl1 & Hl2).
  destruct (process_item out tw th q idx img_path st1) as [r1 s1].
  destruct (process_item out tw th q idx img_path st2) as [r2 s2].
  cbn [fst snd] in *. subst r2. destruct r1 as [o|e]; [|done].
  destruct (IH (S idx) (if decide (o = Saved) then S n else n) s1 s2 Hagree')
    as (Hres' & Hagree'' & Hl1' & Hl2').
  unfold list_file in *. split_and!; [done..|congruence|congruence].
Qed.

(** [generate_image_list] on two file systems that agree but at the list
    file, which is a directory in both or in neither. *)
Lemma generate_image_list_sim (out : Path) (st1 st2 : state) :
  let list_file := out ++ [list_file_name] in
  agree_except list_file (fs st1) (fs st2) →
  (fs st1 !! list_file = Some Dir ↔ fs st2 !! list_file = Some Dir) →
  cwd st1 = cwd st2 →
  let r1 := generate_image_list out st1 in
  let r2 := generate_image_list out st2 in
  r1.1 = r2.1
  ∧ (r1.1 = Ok true → fs r1.2 = fs r2.2)
  ∧ (r1.1 ≠ Ok true → fs r1.2 = fs st1 ∧ fs r2.2 = fs st2).
Proof.
  intros list_file Hagree Hkind Hcwd. simpl.
  destruct (generate_image_list_cases out st1) as (names & Hs & Hn & Hnames & ->).
  destruct (generate_image_list_cases out st2) as (names2 & Hs2 & Hn2 & Hnames2 & ->).
  assert (names2 = names) as ->.
  { apply sorted_names_unique; [done..|]. intros n.
    rewrite Hnames, Hnames2.
    split; intros [Hm Hsome]; (split; [done|]).
    - rewrite Hagree; [done|]. intros Heq.
      apply (inj (λ x, out ++ [x])) in Heq. subst n.
      by rewrite list_file_not_matching in Hm.
    - rewrite <- Hagree; [done|]. intros Heq.
      apply (inj (λ x, out ++ [x])) in Heq. subst n.
      by rewrite list_file_not_matching in Hm. }
  destruct names as [|n0 names']; [by split_and!|].
  fold list_file. rewrite <- (stat_agree out list_file_name _ _ Hagree), <- Hcwd.
  rewrite <- (bool_decide_ext _ _ Hkind).
  destruct (_ && _); cbn [fst snd fs emit set_fs]; [|by split_and!].
  split_and!; [done| |done]. intros _. apply map_eq. intros p.
  destruct (decide (p = list_file)) as [->|Hne].
  - by rewrite !lookup_insert_eq.
  - rewrite !lookup_insert_ne by done. by apply Hagree.
Qed.

End TwoRunsLoop.

(** ** The whole run on two states *)

Section TwoRunsMain.
Context {RNG : Random} {CV : Cv2}.

Lemma sorted_set_ext (l1 l2 : list Path) :
  (∀ p, p ∈ l1 ↔ p ∈ l2) → sorted_set l1 = sorted_set l2.
Proof.
  intros Hiff. unfold sorted_set. do 2 f_equal. apply set_eq. intros p.
  by rewrite !elem_of_list_to_set.
Qed.

Lemma process_item_cwd output_dir tw th q idx img_path (st : state) :
  cwd (process_item output_dir tw th q idx img_path st).2 = cwd st.
Proof.
  unfold process_item, bind. rewrite load_image_eq.
  destruct (fs st !! img_path) as [[b|]|]; [|done..].
  destruct (imdecode b) as [img|]; [|done].
  rewrite resize_if_needed_cases.
  assert (∀ r s,
    cwd (match save_image r (output_dir ++ [calib_name idx]) q s with
         | (Ok saved, s') =>
             (if saved
              then bind (logger DEBUG (MsgSaved (output_dir ++ [calib_name idx])))
                     (λ _, ret Saved)
              else bind (logger WARNING (MsgSaveFailed (output_dir ++ [calib_name idx])))
                     (λ _, ret SaveFailure)) s'
         | (Raise e, s') => (Raise e, s')
         end).2 = cwd s) as Hsave.
  { intros r s. rewrite save_image_eq.
    destruct (imencode r q); [destruct (_ && _)|]; done. }
  destruct (decide (shape img = (th, tw))); [apply Hsave|].
  destruct (cv_resize img tw th); [apply Hsave|done].
Qed.

Lemma process_loop_cwd output_dir tw th q image_paths :
  ∀ idx n (st : state),
  cwd (process_loop output_dir tw th q idx image_paths n st).2 = cwd st.
Proof.
  induction image_paths as [|img_path image_paths IH]; intros idx n st; [done|].
  rewrite process_loop_step.
  pose proof (process_item_cwd output_dir tw th q idx img_path st) as Hcwd.
  destruct (process_item output_dir tw th q idx img_path st) as [[o|e] st1];
    cbn [snd] in Hcwd; [|done].
  by rewrite IH.
Qed.

(** The loop changes entries under output names only; it neither replaces
    a directory nor creates one. *)
Lemma process_loop_kind output_dir tw th q image_paths :
  ∀ idx n (st : state) p,
  fs (process_loop output_dir tw th q idx image_paths n st).2 !! p = fs st !! p
  ∨ (glob_match output_dir calib_pattern p = true
     ∧ fs st !! p ≠ Some Dir
     ∧ fs (process_loop output_dir tw th q idx image_paths n st).2 !! p ≠ Some Dir).
Proof.
  induction image_paths as [|img_path image_paths IH]; intros idx n st p; [by left|].
  rewrite process_loop_step.
  pose proof (process_item_fs output_dir tw th q idx img_path st) as Hitem.
  destruct (process_item output_dir tw th q idx img_path st) as [[o|e] st1];
    simpl in Hitem.
  - specialize (IH (S idx) (if decide (o = Saved) then S n else n) st1 p).
    destruct Hitem as [[_ Hfs]|(_ & Hdir & b & Hfs)]; rewrite Hfs in IH; [done|].
    destruct (decide (p = output_dir ++ [calib_name idx])) as [->|Hne].
    + right. rewrite lookup_insert_eq in IH.
      split_and!; [apply calib_path_matches|done|].
      destruct IH as [->|(_ & _ & ?)]; done.
    + rewrite !lookup_insert_ne in IH by done. exact IH.
  - left. cbn [snd]. by destruct Hitem as [[_ ->]|([=] & _)].
Qed.

(** [generate_image_list] changes the list file at most, and only when it
    is not a directory. *)
Lemma generate_image_list_kind (output_dir : Path) (st : state) p :
  fs (generate_image_list output_dir st).2 !! p = fs st !! p
  ∨ (p = output_dir ++ [list_file_name]
     ∧ fs st !! p ≠ Some Dir
     ∧ fs (generate_image_list output_dir st).2 !! p ≠ Some Dir).
Proof.
  destruct (generate_image_list_cases output_dir st) as (names & _ & _ & _ & ->).
  destruct names as [|n names]; [by left|].
  destruct (bool_decide (stat _ _ = _) && _) eqn:Hw; [|by left].
  cbn [snd fs emit set_fs].
  destruct (decide (p = output_dir ++ [list_file_name])) as [->|Hne].
  - right. apply andb_true_iff in Hw as [_ Hw].
    apply negb_true_iff, bool_decide_eq_false in Hw.
    by rewrite lookup_insert_eq.
  - left. by rewrite lookup_insert_ne.
Qed.

Lemma generate_image_list_cwd (output_dir : Path) (st : state) :
  cwd (generate_image_list output_dir st).2 = cwd st.
Proof.
  destruct (generate_image_list_cases output_dir st) as (names & _ & _ & _ & ->).
  destruct names as [|n names]; [done|]. by destruct (_ && _).
Qed.

Lemma mkdir_parents_clear (dir : Path) (st st' : state) :
  mkdir_parents dir st = (Ok true, st') →
  Forall (λ d, is_file (fs st) d = false) (ancestors_and_self dir).
Proof. unfold mkdir_parents. case_bool_decide; [done|]. intros [=]. Qed.

Lemma ancestor_not_matching (dir p : Path) pat :
  p ∈ ancestors_and_self dir → glob_match dir pat p = false.
Proof.
  intros Hp. destruct (glob_match dir pat p) eqn:Hm; [|done].
  apply glob_match_spec in Hm as (n & -> & _). by apply child_not_ancestor in Hp.
Qed.

(** [process_images] and the file system. *)
Lemma process_images_alike image_paths output_dir tw th q (st : state) :
  alike output_dir (fs st) (fs (process_images image_paths output_dir tw th q st).2)
  ∧ fs (process_images image_paths output_dir tw th q st).2
      !! (output_dir ++ [list_file_name])
    = fs st !! (output_dir ++ [list_file_name])
  ∧ cwd (process_images image_paths output_dir tw th q st).2 = cwd st.
Proof.
  rewrite process_images_eq.
  destruct (mkdir_parents_result output_dir st) as [[st1 Hmk]|Hmk]; rewrite Hmk;
    [|split_and!; [by left|done..]].
  pose proof (mkdir_parents_clear _ _ _ Hmk) as Hanc.
  set (s := emit (Log INFO (MsgProcessing (length image_paths)))
              (clear_existing output_dir st1).2).
  assert (∀ p, fs (process_loop output_dir tw th q 0 image_paths 0 s).2 !! p
               = fs st !! p
               ∨ (p ∈ ancestors_and_self output_dir
                  ∧ is_file (fs st) p = false
                  ∧ fs (process_loop output_dir tw th q 0 image_paths 0 s).2 !! p
                    = Some Dir)
               ∨ (glob_match output_dir calib_pattern p = true
                  ∧ fs st !! p ≠ Some Dir
                  ∧ fs (process_loop output_dir tw th q 0 image_paths 0 s).2 !! p
                    ≠ Some Dir)) as Hloop.
  { intros p.
    assert (fs s !! p
            = if glob_match output_dir calib_pattern p && is_file (fs st1) p
              then None else fs st1 !! p) as Hs by apply clear_existing_lookup.
    pose proof (mkdir_parents_lookup _ _ _ p Hmk) as Hp1.
    pose proof (process_loop_kind output_dir tw th q image_paths 0 0 s p) as Hp3.
    case_bool_decide as Hin.
    - right; left. rewrite (ancestor_not_matching _ _ _ Hin) in *.
      cbn [andb] in Hs. rewrite Forall_forall in Hanc.
      split_and!; [done|by apply Hanc|].
      destruct Hp3 as [->|[[=] _]]. by rewrite Hs.
    - unfold is_file in Hs. rewrite Hp1 in Hs.
      destruct (glob_match output_dir calib_pattern p) eqn:Hm.
      + destruct (fs st !! p) as [[c|]|] eqn:Hp0; cbn [andb] in Hs.
        * right; right. split_and!; [done..|].
          destruct Hp3 as [->|(_ & _ & ?)]; [by rewrite Hs|done].
        * left. destruct Hp3 as [->|(_ & Hd & _)]; [done|]. by rewrite Hs in Hd.
        * destruct Hp3 as [Heq|(_ & _ & ?)]; [left; by rewrite Heq|].
          right; right. done.
      + left. cbn [andb] in Hs. destruct Hp3 as [->|[[=] _]]. done. }
  assert (fs (process_loop output_dir tw th q 0 image_paths 0 s).2
            !! (output_dir ++ [list_file_name])
          = fs st !! (output_dir ++ [list_file_name])) as Hlist.
  { destruct (Hloop (output_dir ++ [list_file_name])) as [?|[(Hin & _)|(Hm & _)]];
      [done|by apply child_not_ancestor in Hin|].
    by rewrite glob_match_child, list_file_not_matching in Hm by done. }
  pose proof (process_loop_cwd output_dir tw th q image_paths 0 0 s) as Hcwd.
  apply mkdir_parents_true in Hmk as (Hcwd1 & _).
  assert (cwd s = cwd st) as Hcwds.
  { unfold s. cbn [cwd emit].
    destruct (clear_existing_frame output_dir st1) as (_ & -> & _). done. }
  destruct (process_loop _ _ _ _ _ _ _ s) as [[n|e] st2]; cbn [fst snd fs cwd emit] in *.
  - split_and!; [|done|congruence]. intros p.
    destruct (Hloop p) as [?|[(? & ? & Hd)|(? & ? & ?)]];
      [by left| |right; right; by split_and!; [left|..]].
    right; left. unfold is_file at 2. by rewrite Hd.
  - split_and!; [|done|congruence]. intros p.
    destruct (Hloop p) as [?|[(? & ? & Hd)|(? & ? & ?)]];
      [by left| |right; right; by split_and!; [left|..]].
    right; left. unfold is_file at 2. by rewrite Hd.
Qed.

Lemma alike_generate (out : Path) (f : FS) (st : state) :
  alike out f (fs st) → alike out f (fs (generate_image_list out st).2).
Proof.
  intros Halike p.
  destruct (generate_image_list_kind out st p) as [Heq|(-> & Hd & Hd')].
  { specialize (Halike p). unfold is_file in *. by rewrite Heq. }
  destruct (Halike (out ++ [list_file_name])) as [Heq|[(Hin & _)|(_ & ? & _)]].
  - right; right. split_and!; [by right| |done]. by rewrite Heq.
  - by apply child_not_ancestor in Hin.
  - right; right. split_and!; [by right|done..].
Qed.

Lemma main_tail_eq args selected (st : state) :
  main_tail args selected st
  = match process_images selected (output_dir args)
            (width args) (height args) (quality args) st with
    | (Ok successful, st1) =>
        if bool_decide (successful = 0%nat)
        then (Ok 1, emit (Log ERROR MsgNoneProcessed) st1)
        else match generate_image_list (output_dir args) st1 with
             | (Ok generated, st2) =>
                 if generated then (Ok 0, emit (Log INFO MsgCompleted) st2)
                 else (Ok 1, emit (Log ERROR MsgListFailed) st2)
             | (Raise e, st2) => (Raise e, st2)
             end
    | (Raise e, st1) => (Raise e, st1)
    end.
Proof.
  unfold main_tail, bind.
  destruct (process_images _ _ _ _ _ st) as [[n|e] st1]; [|done].
  case_bool_decide; [done|].
  by destruct (generate_image_list _ st1) as [[[|]|e] st2].
Qed.

(** What the part of [main] after the sampling does to the file system. *)
Lemma main_tail_alike args selected (st : state) :
  alike (output_dir args) (fs st) (fs (main_tail args selected st).2)
  ∧ cwd (main_tail args selected st).2 = cwd st.
Proof.
  rewrite main_tail_eq.
  destruct (process_images_alike selected (output_dir args)
              (width args) (height args) (quality args) st) as (Halike & _ & Hcwd).
  destruct (process_images _ _ _ _ _ st) as [[n|e] st1]; cbn [snd] in *; [|done].
  case_bool_decide; [done|].
  pose proof (alike_generate _ _ _ Halike) as Halike'.
  pose proof (generate_image_list_cwd (output_dir args) st1) as Hcwd'.
  destruct (generate_image_list _ st1) as [[[|]|e] st2]; cbn [snd fs cwd emit] in *;
    (split; [done|congruence]).
Qed.

Lemma alike_list_kind (out : Path) (f1 f2 : FS) :
  alike out f1 f2 →
  f1 !! (out ++ [list_file_name]) = Some Dir
  ↔ f2 !! (out ++ [list_file_name]) = Some Dir.
Proof.
  intros Halike.
  destruct (Halike (out ++ [list_file_name])) as [->|[(Hin & _)|(_ & ? & ?)]];
    [done|by apply child_not_ancestor in Hin|by split].
Qed.

Lemma agree_except_eq (x : Path) (f1 f2 : FS) :
  agree_except x f1 f2 → f1 !! x = f2 !! x → f1 = f2.
Proof.
  intros Hagree Hx. apply map_eq. intros p.
  destruct (decide (p = x)) as [->|Hne]; [done|by apply Hagree].
Qed.

(** The part of [main] after the sampling, on two alike file systems: the
    results are the same, and the final file systems differ at most at
    the list file, where each is as it was. *)
Lemma main_tail_sim args selected (st1 st2 : state) :
  let list_file := output_dir args ++ [list_file_name] in
  Forall (λ p, p ≠ list_file) selected →
  alike (output_dir args) (fs st1) (fs st2) →
  cwd st1 = cwd st2 →
  (main_tail args selected st1).1 = (main_tail args selected st2).1
  ∧ ((fs (main_tail args selected st1).2 = fs st1
      ∧ fs (main_tail args selected st2).2 = fs st2)
     ∨ (agree_except list_file
          (fs (main_tail args selected st1).2) (fs (main_tail args selected st2).2)
        ∧ fs (main_tail args selected st1).2 !! list_file = fs st1 !! list_file
        ∧ fs (main_tail args selected st2).2 !! list_file = fs st2 !! list_file)
     ∨ fs (main_tail args selected st1).2 = fs (main_tail args selected st2).2).
Proof.
  intros list_file Hsel Halike Hcwd. rewrite !main_tail_eq, !process_images_eq.
  set (out := output_dir args) in *.
  destruct (mkdir_parents_alike out st1 st2 Halike)
    as [[-> ->]|(st1' & st2' & Hmk1 & Hmk2 & Hcwd1 & Hcwd2)].
  { split; [done|]. by left. }
  rewrite Hmk1, Hmk2.
  destruct (prepare_alike out st1 st2 st1' st2' Halike Hmk1 Hmk2)
    as (Hagree & Hl1 & Hl2).
  set (s1 := emit (Log INFO (MsgProcessing (length selected)))
               (clear_existing out st1').2).
  set (s2 := emit (Log INFO (MsgProcessing (length selected)))
               (clear_existing out st2').2).
  assert (cwd s1 = cwd s2) as Hcwds.
  { unfold s1, s2. cbn [cwd emit].
    destruct (clear_existing_frame out st1') as (_ & -> & _).
    destruct (clear_existing_frame out st2') as (_ & -> & _). congruence. }
  destruct (process_loop_sim out (width args) (height args) (quality args)
              selected Hsel 0%nat 0%nat s1 s2 Hagree)
    as (Hres & Hagree' & Hl1' & Hl2').
  pose proof (process_loop_cwd out (width args) (height args) (quality args)
                selected 0 0 s1) as Hc1.
  pose proof (process_loop_cwd out (width args) (height args) (quality args)
                selected 0 0 s2) as Hc2.
  assert (fs s1 !! list_file = fs st1 !! list_file) as Hs1 by exact Hl1.
  assert (fs s2 !! list_file = fs st2 !! list_file) as Hs2 by exact Hl2.
  fold list_file in Hl1', Hl2'. rewrite Hs1 in Hl1'. rewrite Hs2 in Hl2'.
  clear Hl1 Hl2 Hs1 Hs2.
  destruct (process_loop out _ _ _ _ _ _ s1) as [r1 t1].
  destruct (process_loop out _ _ _ _ _ _ s2) as [r2 t2].
  cbn [fst snd] in *. subst r2. destruct r1 as [successful|e].
  2: { split; [done|]. right; left. by split_and!. }
  case_bool_decide as Hzero.
  { split; [done|]. right; left. by split_and!. }
  set (u1 := emit (Log INFO (MsgProcessed successful (length selected))) t1).
  set (u2 := emit (Log INFO (MsgProcessed successful (length selected))) t2).
  destruct (generate_image_list_sim out u1 u2) as (Hg & Hgt & Hgf).
  { exact Hagree'. }
  { unfold u1, u2. cbn [fs emit]. fold list_file. rewrite Hl1', Hl2'.
    by apply alike_list_kind. }
  { unfold u1, u2. cbn [cwd emit]. congruence. }
  destruct (generate_image_list out u1) as [g1 v1].
  destruct (generate_image_list out u2) as [g2 v2].
  cbn [fst snd] in *. subst g2. destruct g1 as [[|]|e]; cbn [fst snd fs emit].
  - split; [done|]. right; right. by apply Hgt.
  - destruct Hgf as [-> ->]; [done|]. split; [done|]. right; left. by split_and!.
  - destruct Hgf as [-> ->]; [done|]. split; [done|]. right; left. by split_and!.
Qed.

(** ** Collection and sampling on two states *)

Lemma sample_images_sim (image_paths : list Path) (num_samples seed : Z)
    (st1 st2 : state) :
  (sample_images image_paths num_samples seed st1).1
  = (sample_images image_paths num_samples seed st2).1
  ∧ fs (sample_images image_paths num_samples seed st1).2 = fs st1
  ∧ cwd (sample_images image_paths num_samples seed st1).2 = cwd st1.
Proof.
  unfold sample_images, bind, random_seed, random_sample, logger, ret. simpl.
  case_bool_decide as Hsmall; simpl; [done|].
  case_bool_decide as Hrange; simpl; done.
Qed.

Lemma main_head_sim args (st1 st2 : state) :
  stat (fs st1) (source_dir args) = stat (fs st2) (source_dir args) →
  (∀ p, p ∈ found_all (fs st1) (source_dir args) default_extensions
        ↔ p ∈ found_all (fs st2) (source_dir args) default_extensions) →
  (main_head args st1).1 = (main_head args st2).1
  ∧ fs (main_head args st1).2 = fs st1
  ∧ cwd (main_head args st1).2 = cwd st1
  ∧ ∀ selected, (main_head args st1).1 = Ok selected →
                selected ⊆ found_all (fs st1) (source_dir args) default_extensions.
Proof.
  intros Hstat Hfound. unfold main_head, bind.
  rewrite !collect_image_paths_cases, <- Hstat.
  destruct (stat (fs st1) (source_dir args)) as [[c|]|]; [by split_and!| |by split_and!].
  cbv zeta. rewrite <- (sorted_set_ext _ _ Hfound).
  assert (found_all (fs st1) (source_dir args) default_extensions = []
          ↔ found_all (fs st2) (source_dir args) default_extensions = []) as Hnil.
  { split; intros Hnil; apply elem_of_nil_inv; intros p Hp;
      apply Hfound in Hp; rewrite Hnil in Hp; by apply elem_of_nil in Hp. }
  destruct (decide (found_all (fs st1) _ _ = [])) as [Hn1|Hn1];
    destruct (decide (found_all (fs st2) _ _ = [])) as [Hn2|Hn2];
    [by split_and!|by apply Hnil in Hn1|by apply Hnil in Hn2|].
  set (corpus := sorted_set (found_all (fs st1) (source_dir args) default_extensions)).
  set (c1 := emit _ (add_trace _ st1)). set (c2 := emit _ (add_trace _ st2)).
  destruct (sample_images_sim corpus (num_images args) (seed args) c1 c2)
    as (Hres & Hfs & Hcwd).
  split_and!; [done..|]. intros selected Hsel.
  destruct (sample_images corpus _ _ c1) as [r1 t1] eqn:Hrun.
  cbn [fst] in Hsel. subst r1. apply sample_images_subset in Hrun as (Hsub & _).
  intros p Hp. apply Hsub in Hp. exact (proj1 (elem_of_sorted_set _ _) Hp).
Qed.

Lemma main_body_split args (st : state) :
  main_body args st
  = match main_head args st with
    | (Ok selected, st') => main_tail args selected st'
    | (Raise e, st') => (Raise e, st')
    end.
Proof.
  unfold main_body, main_head, main_tail, bind.
  destruct (collect_image_paths _ _ st) as [[all_images|e] st1]; [|done].
  by destruct (sample_images _ _ _ st1) as [[selected|e] st2].
Qed.

Lemma main_of_body args (st : state) :
  (main args st).1 = match (main_body args st).1 with
                     | Ok code => Ok code
                     | Raise _ => Ok 1
                     end
  ∧ fs (main args st).2 = fs (main_body args st).2
  ∧ cwd (main args st).2 = cwd (main_body args st).2.
Proof.
  unfold main, try_except.
  destruct (main_body args st) as [[code|e] st']; [done|]. by destruct e.
Qed.

(** No collected path is the list file: its name has no image suffix. *)
Lemma found_not_list_file (f : FS) (source_dir out : Path) p :
  p ∈ found_all f source_dir default_extensions → p ≠ out ++ [list_file_name].
Proof.
  intros (_ & ext & Hext & Hm)%elem_of_found_all ->.
  assert (∃ pat, pat ∈ ["*.jpg"; "*.JPG"; "*.jpeg"; "*.JPEG"; "*.png"; "*.PNG"]
                 ∧ rglob_match source_dir pat (out ++ [list_file_name]) = true)
    as (pat & Hpat & Hpm).
  { unfold default_extensions in Hext.
    repeat (apply elem_of_cons in Hext as [->|Hext]);
      [..|by apply elem_of_nil in Hext];
      (destruct Hm as [Hm|Hm]; eexists; (split; [|exact Hm]));
      vm_compute; repeat constructor. }
  apply rglob_match_spec in Hpm as (sub & n & Heq & Hn).
  rewrite app_assoc in Heq. apply app_inj_tail in Heq as [_ <-].
  repeat (apply elem_of_cons in Hpat as [->|Hpat]);
    [..|by apply elem_of_nil in Hpat]; done.
Qed.

(** The whole run on two states with alike file systems in which the
    source directory and what is found below it are the same. *)
Lemma main_sim args (st1 st2 : state) :
  let list_file := output_dir args ++ [list_file_name] in
  stat (fs st1) (source_dir args) = stat (fs st2) (source_dir args) →
  (∀ p, p ∈ found_all (fs st1) (source_dir args) default_extensions
        ↔ p ∈ found_all (fs st2) (source_dir args) default_extensions) →
  alike (output_dir args) (fs st1) (fs st2) →
  cwd st1 = cwd st2 →
  (main args st1).1 = (main args st2).1
  ∧ ((fs (main args st1).2 = fs st1 ∧ fs (main args st2).2 = fs st2)
     ∨ (agree_except list_file (fs (main args st1).2) (fs (main args st2).2)
        ∧ fs (main args st1).2 !! list_file = fs st1 !! list_file
        ∧ fs (main args st2).2 !! list_file = fs st2 !! list_file)
     ∨ fs (main args st1).2 = fs (main args st2).2).
Proof.
  intros list_file Hstat Hfound Halike Hcwd.
  destruct (main_of_body args st1) as (-> & -> & _).
  destruct (main_of_body args st2) as (-> & -> & _).
  rewrite !main_body_split.
  destruct (main_head_sim args st1 st2 Hstat Hfound) as (Hres & Hfs1 & Hcwd1 & Hsub).
  destruct (main_head_sim args st2 st1 (eq_sym Hstat) (λ p, iff_sym (Hfound p)))
    as (_ & Hfs2 & Hcwd2 & _).
  destruct (main_head args st1) as [r1 t1].
  destruct (main_head args st2) as [r2 t2].
  cbn [fst snd] in *. subst r2. destruct r1 as [selected|e].
  2: { split; [done|]. by left. }
  assert (Forall (λ p, p ≠ list_file) selected) as Hsel.
  { apply Forall_forall. intros p Hp.
    apply (found_not_list_file (fs st1) (source_dir args)). by apply (Hsub selected). }
  destruct (main_tail_sim args selected t1 t2 Hsel) as (Hres & Hfs).
  { by rewrite Hfs1, Hfs2. }
  { congruence. }
  rewrite Hfs1, Hfs2 in Hfs. split; [by rewrite Hres|]. exact Hfs.
Qed.

(** X19. The exit status of [main] and the file system it leaves depend on
    the command line, the file system and the working directory only: the
    state of the random generator before the run and the records logged
    before it have no influence (the generator is reseeded before the one
    draw). *)
Theorem main_reproducible args (st1 st2 : state) :
  fs st1 = fs st2 →
  cwd st1 = cwd st2 →
  (main args st1).1 = (main args st2).1
  ∧ fs (main args st1).2 = fs (main args st2).2.
Proof.
  intros Hfs Hcwd.
  destruct (main_sim args st1 st2) as (Hres & Hcases); [by rewrite Hfs| |intros p; left; by rewrite Hfs|done|].
  { intros p. by rewrite Hfs. }
  split; [done|].
  destruct Hcases as [[-> ->]|[(Hagree & Hl1 & Hl2)|?]]; [done| |done].
  apply (agree_except_eq _ _ _ Hagree). by rewrite Hl1, Hl2, Hfs.
Qed.

Lemma ancestor_prefix (dir p : Path) :
  p ∈ ancestors_and_self dir → p `prefix_of` dir.
Proof.
  unfold ancestors_and_self. intros (i & -> & _)%list_elem_of_fmap.
  exists (drop i dir). by rewrite take_drop.
Qed.

(** What a run may change: the output directory and its ancestors, the
    entries of the output directory named [calib_*.jpg], and the list
    file. *)
Lemma main_alike args (st : state) :
  alike (output_dir args) (fs st) (fs (main args st).2)
  ∧ cwd (main args st).2 = cwd st.
Proof.
  destruct (main_of_body args st) as (_ & -> & ->). rewrite main_body_split.
  destruct (main_head_sim args st st eq_refl (λ p, iff_refl _))
    as (_ & Hfs & Hcwd & _).
  destruct (main_head args st) as [[selected|e] st1]; cbn [fst snd] in *.
  - destruct (main_tail_alike args selected st1) as [Halike Hcwd'].
    rewrite Hfs in Halike. split; [done|congruence].
  - split; [|done]. intros p. left. by rewrite Hfs.
Qed.

(** X20. [main] writes nowhere else.  For an output directory and a file
    system in resolved form: an entry of the final file system that
    differs from the initial one is the output directory or one of its
    ancestors, an entry of the output directory named [calib_*.jpg], or
    the list file.  In particular no source image outside the output
    directory is changed or removed. *)
Theorem main_footprint args (st : state) (p : Path) :
  normal (output_dir args) = true →
  resolved_fs (fs st) →
  fs (main args st).2 !! p ≠ fs st !! p →
  p ∈ ancestors_and_self (output_dir args)
  ∨ glob_match (output_dir args) calib_pattern p = true
  ∨ p = output_dir args ++ [list_file_name].
Proof.
  intros _ _ Hne. destruct (main_alike args st) as [Halike _].
  destruct (Halike p) as [Heq|[(? & _)|([?|?] & _)]]; auto.
Qed.

(** X21. For a source directory, an output directory and a file system in
    resolved form: running [main] again on the state it left, with the
    same command line, gives the same exit status and leaves the file
    system as the first run left it, provided neither of the source and
    output directories lies in the other. *)
Theorem main_rerun args (st : state) :
  normal (source_dir args) = true →
  normal (output_dir args) = true →
  resolved_fs (fs st) →
  ¬ source_dir args `prefix_of` output_dir args →
  ¬ output_dir args `prefix_of` source_dir args →
  (main args (main args st).2).1 = (main args st).1
  ∧ fs (main args (main args st).2).2 = fs (main args st).2.
Proof.
  intros _ _ _ Hso Hos. destruct (main_alike args st) as [Halike Hcwd].
  assert (∀ p, source_dir args `prefix_of` p →
               fs st !! p = fs (main args st).2 !! p) as Hsame.
  { intros p [rel ->].
    destruct (Halike (source_dir args ++ rel)) as [?|[(Hin & _)|([Hm|Heq] & _)]];
      [done|..].
    - apply ancestor_prefix in Hin as [k Hk]. destruct Hso. exists (rel ++ k).
      by rewrite app_assoc.
    - apply glob_match_spec in Hm as (n & Heq & _).
      destruct rel as [|r rel _] using rev_ind.
      + destruct Hos. exists [n]. by rewrite app_nil_r in Heq.
      + rewrite app_assoc in Heq. apply app_inj_tail in Heq as [Heq _].
        destruct Hso. by exists rel.
    - destruct rel as [|r rel _] using rev_ind.
      + destruct Hos. exists [list_file_name]. by rewrite app_nil_r in Heq.
      + rewrite app_assoc in Heq. apply app_inj_tail in Heq as [Heq _].
        destruct Hso. by exists rel. }
  destruct (main_sim args st (main args st).2) as (Hres & Hcases);
    [| |done|done|].
  { unfold stat. destruct (source_dir args) as [|d src] eqn:Hsrc; [done|].
    apply Hsame. exists []. by rewrite app_nil_r. }
  { intros p. rewrite !elem_of_found_all.
    split; intros (Hsome & ext & Hext & Hm); (split; [|by eauto]).
    - rewrite <- Hsame; [done|].
      assert (∃ pat, rglob_match (source_dir args) pat p = true) as [pat Hpat]
        by (destruct Hm; eauto).
      apply rglob_match_spec in Hpat as (sub & n & -> & _). by eexists.
    - rewrite Hsame; [done|].
      assert (∃ pat, rglob_match (source_dir args) pat p = true) as [pat Hpat]
        by (destruct Hm; eauto).
      apply rglob_match_spec in Hpat as (sub & n & -> & _). by eexists. }
  split; [done|].
  destruct Hcases as [[_ ->]|[(Hagree & _ & Hl2)|?]]; [done| |done].
  symmetry. by apply (agree_except_eq _ _ _ Hagree).
Qed.

End TwoRunsMain.

Lemma main_reproducible_witness :
  let args := example_args 1 in
  let st1 := initial_state tree_one_corrupt in
  let st2 := State (RNG := parity_random)
               tree_one_corrupt ["/"; "work"] 7 [Log ERROR MsgNoneProcessed] in
  (main args st1).1 = (main args st2).1
  ∧ fs (main args st1).2 = fs (main args st2).2.
Proof.
  apply (main_reproducible (example_args 1) (initial_state tree_one_corrupt)
           (State (RNG := parity_random)
              tree_one_corrupt ["/"; "work"] 7 [Log ERROR MsgNoneProcessed]));
    reflexivity.
Defined.

Lemma main_footprint_witness :
  let args := example_args 300 in
  let p := ["/"; "out"; "calibration_list.txt"] in
  p ∈ ancestors_and_self (output_dir args)
  ∨ glob_match (output_dir args) calib_pattern p = true
  ∨ p = output_dir args ++ [list_file_name].
Proof.
  apply (main_footprint (example_args 300) (initial_state tree_one_corrupt)
           ["/"; "out"; "calibration_list.txt"]).
  - reflexivity.
  - vm_compute. repeat constructor.
  - vm_compute. discriminate.
Defined.

Lemma main_rerun_witness :
  let args := example_args 300 in
  let st := initial_state tree_one_corrupt in
  (main args (main args st).2).1 = (main args st).1
  ∧ fs (main args (main args st).2).2 = fs (main args st).2.
Proof.
  apply (main_rerun (example_args 300) (initial_state tree_one_corrupt)).
  - reflexivity.
  - reflexivity.
  - vm_compute. repeat constructor.
  - vm_compute. intros [k Hk]. discriminate Hk.
  - vm_compute. intros [k Hk]. discriminate Hk.
Defined.

(** ** The list file of a successful run *)

Section ManifestOfRun.
Context {RNG : Random} {CV : Cv2}.

(** X15. When [main] exits with status 0, the output directory holds at
    least one entry that starts with [calib_] and ends in [.jpg], and
    [calibration_list.txt] is a regular file with one line for each entry
    so named that the directory holds at exit, each once, in ascending
    order of their names.  With the absolute form of the output directory
    (the directory as given when it starts at the root, otherwise the
    working directory followed by it) being the root followed by [comps],
    the line of a name is a slash, the parts [comps] and the name joined
    by slashes, and a line feed. *)
Theorem main_success_manifest (args : arguments) (st : state)
    (comps : list string) :
  output_dir args = "/" :: comps
  ∨ (Forall (λ c, has_slash c = false) (output_dir args)
     ∧ cwd st ++ output_dir args = "/" :: comps) →
  (main args st).1 = Ok 0 →
  let final := (main args st).2 in
  let out := output_dir args in
  let line n := "/" +:+ String.concat "/" (comps ++ [n]) +:+ String "010" "" in
  ∃ names : list string,
    names ≠ []
    ∧ StronglySorted String.le names
    ∧ NoDup names
    ∧ (∀ n, n ∈ names ↔
            (∃ mid, n = "calib_" +:+ mid +:+ ".jpg")
            ∧ is_Some (fs final !! (out ++ [n])))
    ∧ fs final !! (out ++ ["calibration_list.txt"])
      = Some (File (String.concat "" (line <$> names))).
Proof.
  intros Habs Hexit. cbv zeta.
  destruct (main_alike args st) as [_ Hcwd]. revert Hexit Hcwd.
  unfold main, try_except.
  destruct (main_body args st) as [[code|e] st1] eqn:Hbody; [|by destruct e].
  cbn [fst snd]. intros [= ->] Hcwd.
  apply main_body_inv in Hbody as [?|(_ & st3 & st4 & n & _ & Hgen & ->)]; [done|].
  destruct (generate_image_list_cases (output_dir args) st3)
    as (names & Hsorted & Hnodup & Hnames & Heq).
  rewrite Hgen in Heq. exists names.
  assert (Forall (λ n, n ≠ "/") names) as Hroot.
  { apply Forall_forall. intros m [Hm _]%Hnames. by apply calib_name_not_root. }
  rewrite <- (manifest_lines (cwd st3) (output_dir args) comps names); [|..|done].
  2: { destruct names as [|n0 names']; [done|]. destruct (_ && _); [|done].
       injection Heq as ->. cbn [cwd emit set_fs] in Hcwd. by rewrite Hcwd. }
  destruct names as [|n0 names']; [done|].
  destruct (_ && _); [|done]. injection Heq as ->.
  cbn [fs cwd emit set_fs]. split_and!; [done..| |].
  - intros m. rewrite Hnames, fnmatch_calib_pattern.
    split; intros [Hm Hsome]; (split; [done|]).
    + rewrite lookup_insert_ne; [done|]. intros Heq.
      apply (inj (λ x, output_dir args ++ [x])) in Heq. subst m.
      by destruct Hm as [mid [=]].
    + rewrite lookup_insert_ne in Hsome; [done|]. intros Heq.
      apply (inj (λ x, output_dir args ++ [x])) in Heq. subst m.
      by destruct Hm as [mid [=]].
  - by rewrite lookup_insert_eq.
Qed.

End ManifestOfRun.

Lemma main_success_manifest_witness :
  let args := example_args 300 in
  let final := (main args (initial_state tree_one_corrupt)).2 in
  let out := output_dir args in
  let line n := "/" +:+ String.concat "/" (["out"] ++ [n]) +:+ String "010" "" in
  ∃ names : list string,
    names ≠ []
    ∧ StronglySorted String.le names
    ∧ NoDup names
    ∧ (∀ n, n ∈ names ↔
            (∃ mid, n = "calib_" +:+ mid +:+ ".jpg")
            ∧ is_Some (fs final !! (out ++ [n])))
    ∧ fs final !! (out ++ ["calibration_list.txt"])
      = Some (File (String.concat "" (line <$> names))).
Proof.
  apply (main_success_manifest (example_args 300) (initial_state tree_one_corrupt)
           ["out"]).
  - left. reflexivity.
  - vm_compute. reflexivity.
Defined.
